(** * jyuuyou2200: the record scanner and the tag-balance validator

    A shallow embedding of [src/main.go]: [IsValidHTML] (the stack-based
    tag matcher) and [NewEntriesFromFile] (the line-oriented scanner that
    fills the fixed 2200-slot [Entries] array), together with the parts of
    the Go standard library they call ([strings.IndexByte],
    [strings.TrimSpace], [strings.Split], [strconv.ParseInt], the compiled
    [ClozeDeletionRegexp]).

    Go strings are byte sequences: they are modelled as [string], whose
    characters are the 256 values of [ascii].  Go run-time panics (index or
    slice bounds out of range) are results of their own, see [outcome]. *)

From Stdlib Require Import ZArith Lia Ascii.
From stdpp Require Import base option list strings.

Local Open Scope Z_scope.
Local Open Scope nat_scope.

(** ** Results of Go code: a value, or a run-time panic *)

Inductive panic : Type :=
  | IndexOutOfRange (index : Z) (length : Z)
  | SliceBoundsOutOfRange (lo hi : Z) (length : Z).

Inductive outcome (A : Type) : Type :=
  | Return (a : A)
  | Panic (p : panic).
Arguments Return {A} a.
Arguments Panic {A} p.

Global Instance outcome_ret : MRet outcome := fun A a => Return a.
Global Instance outcome_bind : MBind outcome := fun A B f m =>
  match m with
  | Return a => f a
  | Panic p => Panic p
  end.

(** ** Byte strings *)

Module GoString.

(** [len(s)] *)
Definition len (s : string) : nat := String.length s.

(** [s[n:]] and [s[:n]] on a string long enough. *)
Fixpoint drop (n : nat) (s : string) : string :=
  match n, s with
  | O, _ => s
  | S n', String _ s' => drop n' s'
  | S _, EmptyString => EmptyString
  end.

Fixpoint take (n : nat) (s : string) : string :=
  match n, s with
  | O, _ => EmptyString
  | S n', String c s' => String c (take n' s')
  | S _, EmptyString => EmptyString
  end.

(** [s[lo:hi]]: Go panics unless [lo <= hi <= len(s)]. *)
Definition slice (s : string) (lo hi : nat) : outcome string :=
  if decide (lo ≤ hi ∧ hi ≤ len s)
  then Return (take (hi - lo) (drop lo s))
  else Panic (SliceBoundsOutOfRange (Z.of_nat lo) (Z.of_nat hi) (Z.of_nat (len s))).

(** [s[i]] as an option; the callers below guard every use. *)
Fixpoint at_index (s : string) (i : nat) : option ascii :=
  match s, i with
  | EmptyString, _ => None
  | String c _, O => Some c
  | String _ s', S i' => at_index s' i'
  end.

(** [strings.IndexByte(s, c)]: the index of the first [c] in [s];
    [None] stands for Go's [-1]. *)
Fixpoint IndexByte (s : string) (c : ascii) : option nat :=
  match s with
  | EmptyString => None
  | String c' s' =>
      if decide (c' = c) then Some 0
      else S <$> IndexByte s' c
  end.

Fixpoint rev_append (s acc : string) : string :=
  match s with
  | EmptyString => acc
  | String c s' => rev_append s' (String c acc)
  end.

Definition rev (s : string) : string := rev_append s EmptyString.

(** *** [strings.TrimSpace]

    Go trims the runes for which [unicode.IsSpace] holds, decoding UTF-8
    forwards on the left and backwards on the right.  The white-space
    runes and their encodings are: U+0009..U+000D and U+0020 (one byte),
    U+0085 = C2 85, U+00A0 = C2 A0, U+1680 = E1 9A 80,
    U+2000..U+200A = E2 80 80..8A, U+2028 = E2 80 A8, U+2029 = E2 80 A9,
    U+202F = E2 80 AF, U+205F = E2 81 9F, U+3000 = E3 80 80. *)

Definition code (c : ascii) : N := N_of_ascii c.

Definition asciiSpace (c : ascii) : bool :=
  let n := code c in
  ((9 <=? n) && (n <=? 13) || (n =? 32))%N.

Definition space2 (c1 c2 : ascii) : bool :=
  ((code c1 =? 194) && ((code c2 =? 133) || (code c2 =? 160)))%N.

Definition space3 (c1 c2 c3 : ascii) : bool :=
  let '(a, b, c) := (code c1, code c2, code c3) in
  ((a =? 225) && (b =? 154) && (c =? 128)
   || (a =? 226) && (b =? 128)
        && ((128 <=? c) && (c <=? 138) || (c =? 168) || (c =? 169) || (c =? 175))
   || (a =? 226) && (b =? 129) && (c =? 159)
   || (a =? 227) && (b =? 128) && (c =? 128))%N.

(** [strings.TrimLeftFunc(s, unicode.IsSpace)] *)
Fixpoint TrimLeftSpace (s : string) : string :=
  match s with
  | EmptyString => EmptyString
  | String c1 s1 =>
      if asciiSpace c1 then TrimLeftSpace s1
      else
        match s1 with
        | EmptyString => s
        | String c2 s2 =>
            if space2 c1 c2 then TrimLeftSpace s2
            else
              match s2 with
              | EmptyString => s
              | String c3 s3 =>
                  if space3 c1 c2 c3 then TrimLeftSpace s3 else s
              end
        end
  end.

(** The same on the reversed string: the last rune of [s] is a white
    space exactly when [s] ends with one of the encodings. *)
Fixpoint TrimLeftSpaceRev (s : string) : string :=
  match s with
  | EmptyString => EmptyString
  | String c1 s1 =>
      if asciiSpace c1 then TrimLeftSpaceRev s1
      else
        match s1 with
        | EmptyString => s
        | String c2 s2 =>
            if space2 c2 c1 then TrimLeftSpaceRev s2
            else
              match s2 with
              | EmptyString => s
              | String c3 s3 =>
                  if space3 c3 c2 c1 then TrimLeftSpaceRev s3 else s
              end
        end
  end.

(** [strings.TrimRightFunc(s, unicode.IsSpace)] *)
Definition TrimRightSpace (s : string) : string :=
  rev (TrimLeftSpaceRev (rev s)).

Definition TrimSpace (s : string) : string :=
  TrimRightSpace (TrimLeftSpace s).

(** [strings.Split(s, sep)] for a one-byte separator: the fields between
    the separators, empty ones included; [Split("", ",")] is [[""]]. *)
Fixpoint Split (s : string) (sep : ascii) : list string :=
  match s with
  | EmptyString => [EmptyString]
  | String c s' =>
      if decide (c = sep) then EmptyString :: Split s' sep
      else
        match Split s' sep with
        | [] => [String c EmptyString]
        | f :: fs => String c f :: fs
        end
  end.

(** [strings.Join(l, sep)] *)
Fixpoint Join (l : list string) (sep : string) : string :=
  match l with
  | [] => EmptyString
  | [x] => x
  | x :: l' => x +:+ sep +:+ Join l' sep
  end.

End GoString.

Import GoString.

(** ** The tag-balance validator, [IsValidHTML] *)

(** The five errors [IsValidHTML] builds with [errors.New] and
    [fmt.Errorf]; [HTMLError_Error] is the text of each. *)
Inductive HTMLError : Type :=
  | ErrClosingBeforeOpening
  | ErrNoClosingBracket
  | ErrEmptyTag
  | ErrMismatch (last expected : string)
  | ErrNotAllClosed (tags : list string).

Definition HTMLError_Error (e : HTMLError) : string :=
  match e with
  | ErrClosingBeforeOpening => "found closing bracket before an opening bracket"
  | ErrNoClosingBracket => "found opening bracket but no closing bracket"
  | ErrEmptyTag => "empty tag found"
  | ErrMismatch last expected =>
      "mismatched close tag found: " +:+ last +:+ " != " +:+ expected
  | ErrNotAllClosed tags =>
      "not all tags closed: [" +:+ Join tags " " +:+ "]"
  end.

(** What one turn of the [for] loop does. *)
Inductive iteration : Type :=
  | Break
  | Fail (e : HTMLError)
  | Next (offset : nat) (tags : list string).

(** [tags[len(tags)-1]] *)
Definition top (tags : list string) : outcome string :=
  match last tags with
  | Some t => Return t
  | None => Panic (IndexOutOfRange (-1) 0)
  end.

(** The body of the loop of [IsValidHTML], for [offset < len(s)].  The
    Go variable [offset] is assigned once ([offset = start]) before it is
    read again in [end += offset]. *)
Definition IsValidHTML_body (s : string) (offset : nat) (tags : list string)
  : outcome iteration :=
  (* start := strings.IndexByte(s[offset:], '<') *)
  rest ← slice s offset (len s);
  match IndexByte rest "<" with
  | None => Return Break (* if start == -1 { break } *)
  | Some start0 =>
      (* start += offset *)
      let start := start0 + offset in
      (* if offset < start {
           if strings.IndexByte(s[offset:start], '>') != -1 { return ... }
           offset = start } *)
      gap ← (if decide (offset < start) then slice s offset start
             else Return EmptyString);
      if decide (offset < start ∧ IndexByte gap ">" ≠ None)
      then Return (Fail ErrClosingBeforeOpening)
      else
        let offset := if decide (offset < start) then start else offset in
        (* end := strings.IndexByte(s[start:], '>') *)
        tail ← slice s start (len s);
        match IndexByte tail ">" with
        | None => Return (Fail ErrNoClosingBracket) (* if end == -1 *)
        | Some end0 =>
            (* end += offset *)
            let end_ := end0 + offset in
            (* tag := strings.TrimSpace(s[start+1 : end]) *)
            inner ← slice s (start + 1) end_;
            let tag := TrimSpace inner in
            (* if idx := strings.IndexByte(tag, ' '); idx >= 0 {
                 tag = tag[:idx] } *)
            tag ← match IndexByte tag " " with
                  | Some idx => slice tag 0 idx
                  | None => Return tag
                  end;
            match tag with
            | EmptyString => Return (Fail ErrEmptyTag)
            | String c expected =>
                (* if tag[0] == '/', with expected := tag[1:] *)
                if decide (c = "/"%char) then
                  (* last := tags[len(tags)-1] *)
                  last ← top tags;
                  if decide (last ≠ expected)
                  then Return (Fail (ErrMismatch last expected))
                  else (* tags = tags[:len(tags)-1] *)
                    Return (Next (end_ + 1) (removelast tags))
                else (* tags = append(tags, tag) *)
                  Return (Next (end_ + 1) (tags ++ [tag]))
            end
        end
  end.

(** After the loop. *)
Definition IsValidHTML_end (tags : list string) : option HTMLError :=
  if decide (length tags ≠ 0) then Some (ErrNotAllClosed tags) else None.

(** The loop; every turn moves [offset] forward, so [len(s)] turns are
    enough ([IsValidHTML_loop_fuel] below) and [None] is never the result
    of [IsValidHTML]. *)
Fixpoint IsValidHTML_loop (fuel : nat) (s : string) (offset : nat)
    (tags : list string) : option (outcome (option HTMLError)) :=
  if decide (offset < len s) then
    match fuel with
    | O => None
    | S fuel' =>
        match IsValidHTML_body s offset tags with
        | Panic p => Some (Panic p)
        | Return Break => Some (Return (IsValidHTML_end tags))
        | Return (Fail e) => Some (Return (Some e))
        | Return (Next offset' tags') => IsValidHTML_loop fuel' s offset' tags'
        end
    end
  else Some (Return (IsValidHTML_end tags)).

Definition IsValidHTML (s : string) : outcome (option HTMLError) :=
  default (Return None) (IsValidHTML_loop (len s) s 0 []).

(** ** [strconv.ParseInt(s, 10, 0)] *)

Inductive NumErrorKind : Type := ErrSyntax | ErrRange.

(** [*strconv.NumError] *)
Record NumError : Type := mkNumError {
  Func : string;
  Num : string;
  Err : NumErrorKind
}.

Definition is_digit (c : ascii) : bool :=
  ((48 <=? code c) && (code c <=? 57))%N.

(** The digits of [strconv.ParseUint] in base 10: any other byte (an
    underscore too, the base being given) is a syntax error. *)
Fixpoint digits (s : string) (acc : Z) : option Z :=
  match s with
  | EmptyString => Some acc
  | String c s' =>
      if is_digit c
      then digits s' (acc * 10 + (Z.of_N (code c) - 48))%Z
      else None
  end.

(** [IntSize] is 64. *)
Definition cutoff : Z := (2 ^ 63)%Z.

Definition ParseInt (s : string) : Z + NumError :=
  match s with
  | EmptyString => inr (mkNumError "ParseInt" s ErrSyntax)
  | String c s' =>
      let neg := bool_decide (c = "-"%char) in
      let body := if decide (c = "+"%char ∨ c = "-"%char) then s' else s in
      match body with
      | EmptyString => inr (mkNumError "ParseInt" s ErrSyntax)
      | _ =>
          match digits body 0 with
          | None => inr (mkNumError "ParseInt" s ErrSyntax)
          | Some un =>
              if negb neg && bool_decide (cutoff ≤ un)%Z
              then inr (mkNumError "ParseInt" s ErrRange)
              else if neg && bool_decide (cutoff < un)%Z
              then inr (mkNumError "ParseInt" s ErrRange)
              else inl (if neg then (- un)%Z else un)
          end
      end
  end.

(** ** [ClozeDeletionRegexp], the pattern [{{c[[:digit:]]::(.+)}}]

    Go's matcher returns the leftmost match and, there, the longest text
    for the greedy [(.+)].  A dot matches every rune but the newline, and
    every byte of a malformed UTF-8 sequence counts as a rune, so [(.+)]
    matches any non-empty run of bytes without a newline. *)

Definition newline : ascii := ascii_of_nat 10.

(** [strings.CutPrefix] *)
Fixpoint CutPrefix (s p : string) : option string :=
  match p, s with
  | EmptyString, _ => Some s
  | String c p', String c' s' => if decide (c = c') then CutPrefix s' p' else None
  | String _ _, EmptyString => None
  end.

(** The largest [j] with no newline in [s[:j]] and [s[j:j+2] = "}}"]. *)
Fixpoint group_end (s : string) : option nat :=
  match s with
  | EmptyString => None
  | String c s' =>
      if decide (c = newline) then None
      else
        match group_end s' with
        | Some j => Some (S j)
        | None => if CutPrefix s "}}" is Some _ then Some 0 else None
        end
  end.

(** A match that starts at the first byte of [s]: the whole match and the
    group. *)
Definition match_here (s : string) : option (string * string) :=
  r ← CutPrefix s "{{c";
  match r with
  | String d r1 =>
      if is_digit d then
        r2 ← CutPrefix r1 "::";
        match r2 with
        | String c r3 =>
            if decide (c = newline) then None
            else
              j ← group_end r3;
              Some (take (6 + S j + 2) s, take (S j) r2)
        | EmptyString => None
        end
      else None
  | EmptyString => None
  end.

(** [ClozeDeletionRegexp.FindStringSubmatch(s)]: [None] is Go's [nil]. *)
Fixpoint FindStringSubmatch (s : string) : option (list string) :=
  match match_here s with
  | Some (m, g) => Some [m; g]
  | None =>
      match s with
      | EmptyString => None
      | String _ s' => FindStringSubmatch s'
      end
  end.

(** ** Records and their storage *)

Definition EntryID : nat := 0.
Definition EntryUsage : nat := 1.
Definition EntryTranslation : nat := 2.
Definition EntryWord : nat := 3.
Definition EntryPronunciation : nat := 4.
Definition EntryDefinition : nat := 5.
Definition EntryTags : nat := 6.
Definition EntryEnd : nat := 7.

Definition EntryDirtyMarker : ascii := "*".
Definition EntryDelimiter : string := "---".

Record Entry : Type := mkEntry {
  id : Z;
  dirty : bool;
  comments : list string;
  input : string;
  usage : string;
  translation : string;
  word : string;
  pronunciation : string;
  definition : string;
  tags : list string
}.

(** [Entry{}] *)
Definition Entry_zero : Entry :=
  mkEntry 0 false [] "" "" "" "" "" "" [].

(** [type Entries [2200]Entry]: a list of [Entries_len] records. *)
Abbreviation Entries := (list Entry) (only parsing).

Definition Entries_len : nat := 2200.

(** [Entries{}] *)
Definition Entries_zero : Entries := replicate Entries_len Entry_zero.

(** [entries[i] = e]: the index is an [int64]; Go panics out of range. *)
Definition Entries_set (entries : Entries) (i : Z) (e : Entry)
  : outcome Entries :=
  if decide (0 ≤ i < Z.of_nat Entries_len)%Z
  then Return (<[Z.to_nat i := e]> entries)
  else Panic (IndexOutOfRange i (Z.of_nat Entries_len)).

(** ** Errors of the scanner *)

(** An argument of [fmt.Sprintf]: [%d], [%q] and [%v]. *)
Inductive fmt_arg : Type :=
  | ArgInt (n : Z)
  | ArgQuoted (s : string)
  | ArgNumError (e : NumError)
  | ArgError (e : string).

(** [fmt.Sprintf(format, args...)], kept as the call. *)
Record message : Type := Sprintf {
  format : string;
  args : list fmt_arg
}.

Record EntriesParseError : Type := mkEntriesParseError {
  line : nat;
  data : string;
  reason : message
}.

Inductive error : Type :=
  | ParseError (e : EntriesParseError)
  | ReadError (m : message).

Definition digitsOffset : nat := 3.
Definition dirtyOffset : nat := digitsOffset + 1.
Definition commentOffset : nat := dirtyOffset + 2.

(** ** The scanner, [NewEntriesFromFile] *)

(** What the body of the [for] loop does with one line. *)
Inductive step : Type :=
  | Continue (entries : Entries) (current : Entry)
  | Stop (entries : Entries) (err : error).

Definition set_id (e : Entry) (v : Z) : Entry :=
  mkEntry v (dirty e) (comments e) (input e) (usage e) (translation e)
    (word e) (pronunciation e) (definition e) (tags e).
Definition set_dirty (e : Entry) (v : bool) : Entry :=
  mkEntry (id e) v (comments e) (input e) (usage e) (translation e)
    (word e) (pronunciation e) (definition e) (tags e).
Definition set_comments (e : Entry) (v : list string) : Entry :=
  mkEntry (id e) (dirty e) v (input e) (usage e) (translation e)
    (word e) (pronunciation e) (definition e) (tags e).
Definition set_input (e : Entry) (v : string) : Entry :=
  mkEntry (id e) (dirty e) (comments e) v (usage e) (translation e)
    (word e) (pronunciation e) (definition e) (tags e).
Definition set_usage (e : Entry) (v : string) : Entry :=
  mkEntry (id e) (dirty e) (comments e) (input e) v (translation e)
    (word e) (pronunciation e) (definition e) (tags e).
Definition set_translation (e : Entry) (v : string) : Entry :=
  mkEntry (id e) (dirty e) (comments e) (input e) (usage e) v
    (word e) (pronunciation e) (definition e) (tags e).
Definition set_word (e : Entry) (v : string) : Entry :=
  mkEntry (id e) (dirty e) (comments e) (input e) (usage e) (translation e)
    v (pronunciation e) (definition e) (tags e).
Definition set_pronunciation (e : Entry) (v : string) : Entry :=
  mkEntry (id e) (dirty e) (comments e) (input e) (usage e) (translation e)
    (word e) v (definition e) (tags e).
Definition set_definition (e : Entry) (v : string) : Entry :=
  mkEntry (id e) (dirty e) (comments e) (input e) (usage e) (translation e)
    (word e) (pronunciation e) v (tags e).
Definition set_tags (e : Entry) (v : list string) : Entry :=
  mkEntry (id e) (dirty e) (comments e) (input e) (usage e) (translation e)
    (word e) (pronunciation e) (definition e) v.

(** [if err := IsValidHTML(data); err != nil { ... }] *)
Definition check_html (data : string) (current : Entry) : outcome Entry :=
  err ← IsValidHTML data;
  match err with
  | Some e =>
      let current := set_dirty current true in
      Return (set_comments current (comments current ++ [HTMLError_Error e]))
  | None => Return current
  end.

(** [case EntryID] *)
Definition case_EntryID (line : nat) (data : string)
    (entries : Entries) (current : Entry) : outcome step :=
  if decide (len data < digitsOffset + 1) then
    Return (Stop entries (ParseError (mkEntriesParseError line data
      (Sprintf "line %d: entry ID too short: %q: found %d digits, expected %d digits"
         [ArgInt (Z.of_nat line); ArgQuoted data;
          ArgInt (Z.of_nat (len data)); ArgInt (Z.of_nat (digitsOffset + 1))]))))
  else
    prefix ← slice data 0 (digitsOffset + 1);
    match ParseInt prefix with
    | inr err =>
        Return (Stop entries (ParseError (mkEntriesParseError line data
          (Sprintf "line %d: failed to parse entry ID: %q: %v"
             [ArgInt (Z.of_nat line); ArgQuoted data; ArgNumError err]))))
    | inl v =>
        let current := set_id current v in
        let current := set_dirty current
          (bool_decide (dirtyOffset + 1 ≤ len data)
           && bool_decide (at_index data dirtyOffset = Some EntryDirtyMarker)) in
        let current := set_comments current [] in
        if decide (commentOffset + 1 ≤ len data) then
          comment ← slice data commentOffset (len data);
          Return (Continue entries
                    (set_comments current (comments current ++ [comment])))
        else Return (Continue entries current)
    end.

(** [case EntryUsage] *)
Definition case_EntryUsage (data : string)
    (entries : Entries) (current : Entry) : outcome step :=
  let current := set_usage current data in
  let current :=
    match FindStringSubmatch data with
    | Some (_ :: m1 :: _) => set_input current m1
    | _ =>
        let current := set_dirty current true in
        set_comments current (comments current ++ ["usage is missing cloze deletion."])
    end in
  current ← check_html data current;
  Return (Continue entries current).

(** [case EntryTranslation] *)
Definition case_EntryTranslation (data : string)
    (entries : Entries) (current : Entry) : outcome step :=
  let current := set_translation current data in
  let current :=
    match FindStringSubmatch data with
    | None =>
        let current := set_dirty current true in
        set_comments current
          (comments current ++ ["translation is missing cloze deletion."])
    | Some _ => current
    end in
  current ← check_html data current;
  Return (Continue entries current).

(** [case EntryEnd] *)
Definition case_EntryEnd (line : nat) (data : string)
    (entries : Entries) (current : Entry) : outcome step :=
  if decide (data ≠ EntryDelimiter) then
    Return (Stop entries (ParseError (mkEntriesParseError line data
      (Sprintf "line %d: unexpected end of entry. found: %q, expected: %q"
         [ArgInt (Z.of_nat line); ArgQuoted data; ArgQuoted EntryDelimiter]))))
  else
    entries ← Entries_set entries (id current - 1) current;
    Return (Continue entries Entry_zero).

(** The [switch (line - 1) % (EntryEnd + 1)] *)
Definition scan_line (line : nat) (data : string)
    (entries : Entries) (current : Entry) : outcome step :=
  match (line - 1) mod (EntryEnd + 1) with
  | 0 (* EntryID *) => case_EntryID line data entries current
  | 1 (* EntryUsage *) => case_EntryUsage data entries current
  | 2 (* EntryTranslation *) => case_EntryTranslation data entries current
  | 3 (* EntryWord *) => Return (Continue entries (set_word current data))
  | 4 (* EntryPronunciation *) =>
      Return (Continue entries (set_pronunciation current data))
  | 5 (* EntryDefinition *) =>
      Return (Continue entries (set_definition current data))
  | 6 (* EntryTags *) =>
      Return (Continue entries (set_tags current (Split data ",")))
  | 7 (* EntryEnd *) => case_EntryEnd line data entries current
  | _ => Return (Continue entries current)
  end.

(** [for line := 1; scanner.Scan(); line++ { ... }] over the lines the
    scanner yields. *)
Fixpoint scan (lines : list string) (line : nat)
    (entries : Entries) (current : Entry) : outcome step :=
  match lines with
  | [] => Return (Continue entries current)
  | data :: rest =>
      r ← scan_line line data entries current;
      match r with
      | Continue entries current => scan rest (S line) entries current
      | Stop entries err => Return (Stop entries err)
      end
  end.

(** The reader [f] is what [bufio.Scanner] makes of it: the lines that
    [scanner.Text()] yields in order, and the final [scanner.Err()]
    ([None] is [nil]). *)
Definition NewEntriesFromFile (lines : list string) (scanErr : option string)
  : outcome (Entries * option error) :=
  r ← scan lines 1 Entries_zero Entry_zero;
  match r with
  | Stop entries err => Return (entries, Some err)
  | Continue entries _ =>
      match scanErr with
      | Some err =>
          Return (entries, Some (ReadError
            (Sprintf "failed to read file: %v" [ArgError err])))
      | None => Return (entries, None)
      end
  end.

(** ** Notions the properties are stated with *)

(** The storage a step hands on. *)
Definition step_entries (r : step) : list Entry :=
  match r with
  | Continue entries _ => entries
  | Stop entries _ => entries
  end.

(** The seven lines of a group before its terminator. *)
Record group : Type := mkGroup {
  id_line : string;
  usage_line : string;
  translation_line : string;
  word_line : string;
  pronunciation_line : string;
  definition_line : string;
  tags_line : string
}.

Definition lines (g : group) : list string :=
  [id_line g; usage_line g; translation_line g; word_line g;
   pronunciation_line g; definition_line g; tags_line g; EntryDelimiter].

(** The id on the ID line, [0] when there is none. *)
Definition group_id (g : group) : Z :=
  match ParseInt (take 4 (id_line g)) with
  | inl v => v
  | inr _ => 0
  end.

(** The text of the first cloze deletion, [""] when there is none. *)
Definition cloze (s : string) : string :=
  match FindStringSubmatch s with
  | Some (_ :: m1 :: _) => m1
  | _ => ""
  end.

(** The clean record of a group. *)
Definition record_of (g : group) : Entry :=
  mkEntry (group_id g) false [] (cloze (usage_line g)) (usage_line g)
    (translation_line g) (word_line g) (pronunciation_line g)
    (definition_line g) (Split (tags_line g) ",").

(** A group with nothing to flag: an ID line of four to six bytes that
    starts with an integer and has no marker at index 4, and a prompt and
    a translation that hold a cloze deletion and pass the validator. *)
Definition clean (g : group) : Prop :=
  4 ≤ len (id_line g) < 7
  ∧ (∃ v, ParseInt (take 4 (id_line g)) = inl v)
  ∧ at_index (id_line g) 4 ≠ Some EntryDirtyMarker
  ∧ is_Some (FindStringSubmatch (usage_line g))
  ∧ IsValidHTML (usage_line g) = Return None
  ∧ is_Some (FindStringSubmatch (translation_line g))
  ∧ IsValidHTML (translation_line g) = Return None.

(** A clean group whose id is the number of a slot. *)
Definition well_formed (g : group) : Prop :=
  clean g ∧ (1 ≤ group_id g ≤ 2200)%Z.

(** [entries[r.id-1] = r], for an id in range. *)
Definition commit (entries : list Entry) (r : Entry) : list Entry :=
  <[Z.to_nat (id r - 1) := r]> entries.

(** What a line before the terminator needs to be scanned without a
    structural error and without a crash of the validator: an ID line
    has four bytes that are an integer, the validator returns on the
    prompt and on the translation. *)
Definition line_ok (role : nat) (data : string) : Prop :=
  match role with
  | 0 => 4 ≤ len data ∧ ∃ v, ParseInt (take 4 data) = inl v
  | 1 | 2 => ∃ r, IsValidHTML data = Return r
  | _ => True
  end.

Definition partial_ok (tail : list string) : Prop :=
  ∀ j data, tail !! j = Some data → line_ok j data.

(** ** The methods of [Entry] and [Entries.Write] *)

Definition ID (e : Entry) : Z := id e.
Definition IsDirty (e : Entry) : bool := dirty e.
Definition Comments (e : Entry) : list string := comments e.
Definition Input (e : Entry) : string := input e.
Definition Usage (e : Entry) : string := usage e.
Definition Translation (e : Entry) : string := translation e.
Definition Word (e : Entry) : string := word e.
Definition Pronunciation (e : Entry) : string := pronunciation e.
Definition Definition_ (e : Entry) : string := definition e.
Definition Tags (e : Entry) : list string := tags e.

(** The decimal digits of [fmt]'s integer verbs, least significant digit
    first into the buffer: [fuel] bounds the number of digits. *)
Fixpoint decimal_digits (fuel : nat) (n : N) (acc : string) : string :=
  match fuel with
  | O => acc
  | S fuel' =>
      let acc := String (ascii_of_N (48 + n mod 10)) acc in
      if (n / 10 =? 0)%N then acc else decimal_digits fuel' (n / 10) acc
  end.

Definition decimal (n : N) : string :=
  decimal_digits (S (N.size_nat n)) n EmptyString.

Fixpoint zeros (k : nat) : string :=
  match k with
  | O => EmptyString
  | S k' => String "0" (zeros k')
  end.

(** The verb [%04d]: the zero flag makes the width the least number of
    digits, one less for a negative number, whose sign takes a place. *)
Definition fmt_04d (v : Z) : string :=
  let ds := decimal (Z.to_N (Z.abs v)) in
  if (v <? 0)%Z then "-" +:+ zeros (3 - len ds) +:+ ds
  else zeros (4 - len ds) +:+ ds.

(** [fmt.Sprintf("[sound:%s-%04d.mp3]", prefix, e.id)] *)
Definition Audio (e : Entry) (prefix : string) : string :=
  "[sound:" +:+ prefix +:+ "-" +:+ fmt_04d (id e) +:+ ".mp3]".

Definition CSV (e : Entry) (prefix : string) : list string :=
  [prefix +:+ "-" +:+ fmt_04d (ID e);
   Input e; Usage e; Translation e; Word e; Pronunciation e; Definition_ e;
   Audio e prefix;
   Join (Tags e) ","].

(** The [csv.Writer] that [Entries.Write] makes of its [io.Writer], with
    the tab as its comma: what the method uses of it.  An error is its
    text. *)
Class CSVWriter (W : Type) : Type := {
  csv_Write : W → list string → W * option string;
  csv_Flush : W → W;
  csv_Error : W → option string
}.

(** The [for _, entry := range entries] of [Entries.Write]: the writer
    and the two counters, and the error of a failed [w.Write]. *)
Fixpoint Write_range {W} `{CSVWriter W} (w : W) (entries : list Entry)
    (prefix : string) (count ndirty : nat) : W * nat * nat * option message :=
  match entries with
  | [] => (w, count, ndirty, None)
  | entry :: entries' =>
      let ndirty := if IsDirty entry then S ndirty else ndirty in
      if bool_decide (ID entry = 0%Z) || IsDirty entry
      then Write_range w entries' prefix count ndirty
      else
        match csv_Write w (CSV entry prefix) with
        | (w, Some err) =>
            (w, count, ndirty,
             Some (Sprintf "failed to write csv data: %w" [ArgError err]))
        | (w, None) => Write_range w entries' prefix (S count) ndirty
        end
  end.

(** [entries.Write(f, prefix)]: the writer after the call, and the three
    results [count], [dirty] and the error. *)
Definition Entries_Write {W} `{CSVWriter W} (entries : Entries) (w : W)
    (prefix : string) : W * (nat * nat * option message) :=
  match Write_range w entries prefix 0 0 with
  | (w, count, ndirty, Some err) => (w, (count, ndirty, Some err))
  | (w, count, ndirty, None) =>
      let w := csv_Flush w in
      match csv_Error w with
      | Some err =>
          (w, (count, ndirty,
               Some (Sprintf "failed to flush data: %w" [ArgError err])))
      | None => (w, (count, ndirty, None))
      end
  end.

(** A writer into memory, for examples: the rows written so far, and the
    number of rows it still takes ([None]: any number). *)
Record rows_writer : Type := mkRowsWriter {
  rows : list (list string);
  room : option nat
}.

Global Instance rows_writer_csv : CSVWriter rows_writer := {|
  csv_Write w record :=
    match room w with
    | Some O => (w, Some "short write")
    | Some (S k) => (mkRowsWriter (rows w ++ [record]) (Some k), None)
    | None => (mkRowsWriter (rows w ++ [record]) None, None)
    end;
  csv_Flush w := w;
  csv_Error w := None
|}.

(** ** The variant of the scanner without the validator

    The second driver of the repository has the same [NewEntriesFromFile]
    but for the two calls of [IsValidHTML]. *)

Module Minimal.

(** [case EntryUsage] *)
Definition case_EntryUsage (data : string)
    (entries : Entries) (current : Entry) : outcome step :=
  let current := set_usage current data in
  let current :=
    match FindStringSubmatch data with
    | Some (_ :: m1 :: _) => set_input current m1
    | _ =>
        let current := set_dirty current true in
        set_comments current
          (comments current ++ ["usage is missing cloze deletion."])
    end in
  Return (Continue entries current).

(** [case EntryTranslation] *)
Definition case_EntryTranslation (data : string)
    (entries : Entries) (current : Entry) : outcome step :=
  let current := set_translation current data in
  let current :=
    match FindStringSubmatch data with
    | None =>
        let current := set_dirty current true in
        set_comments current
          (comments current ++ ["translation is missing cloze deletion."])
    | Some _ => current
    end in
  Return (Continue entries current).

Definition scan_line (line : nat) (data : string)
    (entries : Entries) (current : Entry) : outcome step :=
  match (line - 1) mod (EntryEnd + 1) with
  | 0 => case_EntryID line data entries current
  | 1 => case_EntryUsage data entries current
  | 2 => case_EntryTranslation data entries current
  | 3 => Return (Continue entries (set_word current data))
  | 4 => Return (Continue entries (set_pronunciation current data))
  | 5 => Return (Continue entries (set_definition current data))
  | 6 => Return (Continue entries (set_tags current (Split data ",")))
  | 7 => case_EntryEnd line data entries current
  | _ => Return (Continue entries current)
  end.

Fixpoint scan (lines : list string) (line : nat)
    (entries : Entries) (current : Entry) : outcome step :=
  match lines with
  | [] => Return (Continue entries current)
  | data :: rest =>
      r ← scan_line line data entries current;
      match r with
      | Continue entries current => scan rest (S line) entries current
      | Stop entries err => Return (Stop entries err)
      end
  end.

Definition NewEntriesFromFile (lines : list string) (scanErr : option string)
  : outcome (Entries * option error) :=
  r ← scan lines 1 Entries_zero Entry_zero;
  match r with
  | Stop entries err => Return (entries, Some err)
  | Continue entries _ =>
      match scanErr with
      | Some err =>
          Return (entries, Some (ReadError
            (Sprintf "failed to read file: %v" [ArgError err])))
      | None => Return (entries, None)
      end
  end.

End Minimal.

(** ** The record a group leaves *)

(** The marker of the ID line. *)
Definition marked (g : group) : bool :=
  bool_decide (5 ≤ len (id_line g))
  && bool_decide (at_index (id_line g) 4 = Some EntryDirtyMarker).

(** The comment of the ID line. *)
Definition inline_comment (g : group) : list string :=
  if decide (7 ≤ len (id_line g)) then [drop 6 (id_line g)] else [].

(** The notes of a cloze line: the missing cloze deletion, then the
    validator's error. *)
Definition notes (missing : string) (data : string) : list string :=
  (if FindStringSubmatch data is Some _ then [] else [missing])
  ++ match IsValidHTML data with
     | Return (Some e) => [HTMLError_Error e]
     | _ => []
     end.

Definition group_notes (g : group) : list string :=
  notes "usage is missing cloze deletion." (usage_line g)
  ++ notes "translation is missing cloze deletion." (translation_line g).

(** The record of a group, dirty or not. *)
Definition entry_of (g : group) : Entry :=
  mkEntry (group_id g)
    (marked g || bool_decide (group_notes g ≠ []))
    (inline_comment g ++ group_notes g)
    (cloze (usage_line g)) (usage_line g)
    (translation_line g) (word_line g) (pronunciation_line g)
    (definition_line g) (Split (tags_line g) ",").

(** A group that is scanned to its end: an ID line of four bytes or more
    that starts with the number of a slot, and a prompt and a translation
    on which the validator returns. *)
Definition scannable (g : group) : Prop :=
  4 ≤ len (id_line g)
  ∧ (∃ v, ParseInt (take 4 (id_line g)) = inl v)
  ∧ (1 ≤ group_id g ≤ 2200)%Z
  ∧ (∃ r, IsValidHTML (usage_line g) = Return r)
  ∧ (∃ r, IsValidHTML (translation_line g) = Return r).

(** The storage as the scanner may leave it: every slot holds the zero
    record or a record whose id is the number of the slot. *)
Definition Entries_inv (entries : Entries) : Prop :=
  length entries = Entries_len
  ∧ ∀ i e, entries !! i = Some e → e = Entry_zero ∨ id e = (Z.of_nat i + 1)%Z.

(** A tag name as [IsValidHTML] pushes it: not empty, no closing tag, cut
    at its first space. *)
Definition open_name (t : string) : Prop :=
  t ≠ EmptyString ∧ at_index t 0 ≠ Some "/"%char ∧ IndexByte t " " = None.

(** Letters and digits. *)
Definition is_alnum (c : ascii) : bool :=
  let n := code c in
  ((48 <=? n) && (n <=? 57) || (65 <=? n) && (n <=? 90)
   || (97 <=? n) && (n <=? 122))%N.

Fixpoint all_bytes (p : ascii → bool) (s : string) : bool :=
  match s with
  | EmptyString => true
  | String c s' => p c && all_bytes p s'
  end.

(** ** Notions of the further properties *)

(** The entries [Entries.Write] hands to the writer: the slots in use
    whose record is not dirty. *)
Definition writable (e : Entry) : bool :=
  negb (bool_decide (ID e = 0%Z) || IsDirty e).

(** The writer after a run of [w.Write] calls. *)
Definition write_all {W} `{CSVWriter W} (w : W) (records : list (list string))
  : W :=
  foldl (λ w record, (csv_Write w record).1) w records.

(** The number of entries with a property. *)
Definition count_of (p : Entry → bool) (entries : list Entry) : nat :=
  length (filter (λ e, p e = true) entries).

(** A record [m] with the texts of the record [f], and no flag or note
    that [f] does not have. *)
Definition less_flagged (m f : Entry) : Prop :=
  id m = id f ∧ input m = input f ∧ usage m = usage f
  ∧ translation m = translation f ∧ word m = word f
  ∧ pronunciation m = pronunciation f ∧ definition m = definition f
  ∧ tags m = tags f
  ∧ (dirty m = true → dirty f = true)
  ∧ comments m `sublist_of` comments f.

(** The same for the two scans after a line. *)
Definition less_flagged_step (m f : step) : Prop :=
  match m, f with
  | Continue em cm, Continue ef cf =>
      Forall2 less_flagged em ef ∧ less_flagged cm cf
  | Stop em errm, Stop ef errf => Forall2 less_flagged em ef ∧ errm = errf
  | _, _ => False
  end.

(** What the validator can end with, for a stack of open names. *)
Definition IsValidHTML_result_ok (r : outcome (option HTMLError)) : Prop :=
  match r with
  | Panic p => p = IndexOutOfRange (-1) 0
  | Return None => True
  | Return (Some e) =>
      match e with
      | ErrNotAllClosed ts => ts ≠ [] ∧ Forall open_name ts
      | ErrMismatch found expected => open_name found ∧ found ≠ expected
      | _ => True
      end
  end.

(** [strings.TrimSpace] leaves a text that starts and ends with a letter,
    a digit or a slash as it is. *)
Definition is_name_byte (c : ascii) : bool :=
  is_alnum c || bool_decide (c = "/"%char).

(** * Properties *)

(** ** Proof steps *)

Ltac outcome_cases H :=
  repeat match type of H with
  | context [decide ?P] => destruct (decide P)
  | context [mbind _ ?m] =>
      let E := fresh "E" in destruct m eqn:E; simpl in H
  | context [match ?x with _ => _ end] =>
      let E := fresh "E" in destruct x eqn:E; simpl in H
  end.

Ltac simpl_entry :=
  cbn [set_id set_dirty set_comments set_input set_usage set_translation
       set_word set_pronunciation set_definition set_tags
       id dirty comments input usage translation word pronunciation
       definition tags mbind outcome_bind app].

(** ** Byte strings *)

Section string_facts.
Implicit Types (s t : string) (c : ascii) (n i : nat).

Lemma drop_0 s : drop 0 s = s.
Proof. by destruct s. Qed.

Lemma take_len s : take (len s) s = s.
Proof. induction s as [|c s IH]; simpl; [done | by rewrite IH]. Qed.

Lemma len_drop n s : len (drop n s) = len s - n.
Proof.
  unfold len. revert s; induction n as [|n IH]; intros [|c s]; simpl;
    try done; try lia.
Qed.

Lemma len_take n s : n ≤ len s → len (take n s) = n.
Proof.
  unfold len. revert s; induction n as [|n IH]; intros [|c s]; simpl;
    try done; try lia.
  intros ?. rewrite IH; [done | lia].
Qed.

Lemma at_index_lt s i a : at_index s i = Some a → i < len s.
Proof.
  unfold len.
  revert i; induction s as [|c s IH]; intros [|i]; simpl; try done; try lia.
  all: intros ?%IH; lia.
Qed.

Lemma at_index_drop n s i : at_index (drop n s) i = at_index s (n + i).
Proof.
  revert s; induction n as [|n IH]; intros [|c s]; simpl; try done.
  all: by destruct i.
Qed.

Lemma at_index_take n s i : i < n → at_index (take n s) i = at_index s i.
Proof.
  revert s i; induction n as [|n IH]; intros [|c s] [|i]; simpl;
    try done; try lia.
  all: intros ?; apply IH; lia.
Qed.

Lemma at_index_app_l s t i :
  i < len s → at_index (s +:+ t) i = at_index s i.
Proof.
  revert i; induction s as [|c s IH]; intros [|i]; simpl; try done; try lia.
  all: intros ?; apply IH; lia.
Qed.

Lemma IndexByte_Some s c i :
  IndexByte s c = Some i → at_index s i = Some c.
Proof.
  revert i; induction s as [|c' s IH]; intros i; simpl; [done|].
  case_decide as Hc.
  - intros [= <-]. by subst.
  - destruct (IndexByte s c) as [j|] eqn:Hj; simpl; [|done].
    intros [= <-]. by apply IH.
Qed.

Lemma IndexByte_None s c :
  IndexByte s c = None ↔ ∀ i, at_index s i ≠ Some c.
Proof.
  induction s as [|c' s IH]; simpl.
  - split; [by intros _ [|i] | done].
  - case_decide as Hc.
    + split; [done|]. intros H. exfalso. apply (H 0). simpl. by subst.
    + destruct (IndexByte s c) as [j|] eqn:Hj; simpl.
      * split; [done|]. intros H. exfalso.
        apply (H (S j)). simpl. by apply IndexByte_Some.
      * split; [|done]. intros _ [|i]; simpl; [congruence|].
        by apply IH.
Qed.

Lemma slice_Return s lo hi :
  lo ≤ hi → hi ≤ len s → slice s lo hi = Return (take (hi - lo) (drop lo s)).
Proof. intros. unfold slice. by rewrite decide_True. Qed.

Lemma slice_inv s lo hi t :
  slice s lo hi = Return t →
  lo ≤ hi ∧ hi ≤ len s ∧ t = take (hi - lo) (drop lo s).
Proof.
  unfold slice. destruct (decide _) as [[??]|?]; intros [= <-]; auto.
Qed.

Lemma slice_from s lo : lo ≤ len s → slice s lo (len s) = Return (drop lo s).
Proof.
  intros. rewrite slice_Return by lia.
  by rewrite <-len_drop, take_len.
Qed.

Lemma slice_all s : slice s 0 (len s) = Return s.
Proof. rewrite slice_from by lia. by rewrite drop_0. Qed.

Lemma len_app s t : len (s +:+ t) = len s + len t.
Proof. unfold len. induction s; simpl; [done | by f_equal]. Qed.

Lemma drop_app_le n s t : n ≤ len s → drop n (s +:+ t) = drop n s +:+ t.
Proof.
  unfold len. revert s; induction n as [|n IH]; intros [|c s]; simpl;
    try done; try lia.
  intros ?. apply IH. lia.
Qed.

Lemma take_app_le n s t : n ≤ len s → take n (s +:+ t) = take n s.
Proof.
  unfold len. revert s; induction n as [|n IH]; intros [|c s]; simpl;
    try done; try lia.
  intros ?. f_equal. apply IH. lia.
Qed.

Lemma at_index_app_r s t i :
  len s ≤ i → at_index (s +:+ t) i = at_index t (i - len s).
Proof.
  unfold len. revert i; induction s as [|c s IH]; intros i; simpl.
  - by rewrite Nat.sub_0_r.
  - destruct i as [|i]; [lia|]. intros ?. apply IH. lia.
Qed.

Lemma slice_app_le s t lo hi :
  lo ≤ hi → hi ≤ len s → slice (s +:+ t) lo hi = slice s lo hi.
Proof.
  intros. rewrite !slice_Return by (rewrite ?len_app; lia).
  rewrite drop_app_le, take_app_le by (rewrite ?len_drop; lia). done.
Qed.

Lemma IndexByte_lt s c i : IndexByte s c = Some i → i < len s.
Proof. intros ?%IndexByte_Some. by eapply at_index_lt. Qed.

Lemma IndexByte_app_Some s t c i :
  IndexByte s c = Some i → IndexByte (s +:+ t) c = Some i.
Proof.
  revert i; induction s as [|c' s IH]; intros i; simpl; [done|].
  case_decide; [done|].
  destruct (IndexByte s c) as [j|]; [|done]. by rewrite (IH j).
Qed.

Lemma IndexByte_app_None s t c :
  IndexByte s c = None → IndexByte t c = None →
  IndexByte (s +:+ t) c = None.
Proof.
  rewrite !IndexByte_None. intros Hs Ht i.
  destruct (decide (i < len s)).
  - by rewrite at_index_app_l.
  - rewrite at_index_app_r by lia. apply Ht.
Qed.

End string_facts.

(** ** The loop of [IsValidHTML] ends *)

(** Every turn that goes on moves the offset forward. *)
Lemma IsValidHTML_body_Next s offset tags offset' tags' :
  IsValidHTML_body s offset tags = Return (Next offset' tags') →
  offset < offset'.
Proof.
  unfold IsValidHTML_body. intros H.
  outcome_cases H; simplify_eq; lia.
Qed.

(** With [len(s) - offset] turns left the loop reaches its end. *)
Lemma IsValidHTML_loop_fuel fuel s offset tags :
  len s - offset ≤ fuel → is_Some (IsValidHTML_loop fuel s offset tags).
Proof.
  revert offset tags.
  induction fuel as [|fuel IH]; intros offset tags Hfuel; simpl.
  - rewrite decide_False by lia. eauto.
  - case_decide; [|eauto].
    destruct (IsValidHTML_body s offset tags) as [[| |offset' tags']|] eqn:E;
      eauto.
    apply IH. apply IsValidHTML_body_Next in E. lia.
Qed.

(** [IsValidHTML] is the loop run to its end. *)
Lemma IsValidHTML_loop_eq s :
  IsValidHTML_loop (len s) s 0 [] = Some (IsValidHTML s).
Proof.
  unfold IsValidHTML.
  destruct (IsValidHTML_loop_fuel (len s) s 0 []) as [r ->]; [lia | done].
Qed.

(** ** The validator on the two inputs of [TestInvalidHTML] *)

(** C9: [IsValidHTML] returns an error, not [nil], on both inputs of
    [TestInvalidHTML]: on ["<p>1 < 5</p>"] the text [5</p] is read as an
    opening tag and is left unclosed together with [p]; on
    ["<p>1 <> 5</p>"] the tag between [<] and [>] is empty. *)
Theorem IsValidHTML_rejects_baseline_inputs :
  IsValidHTML "<p>1 < 5</p>" = Return (Some (ErrNotAllClosed ["p"; "5</p"]))
  ∧ IsValidHTML "<p>1 <> 5</p>" = Return (Some ErrEmptyTag).
Proof. split; reflexivity. Qed.

(** ** A closing tag on an empty stack *)

(** C2: when the first tag of the text is the closing tag [</b>], the
    stack is empty at [tags[len(tags)-1]] and [IsValidHTML] panics with an
    index out of range; no mismatch error is returned. *)
Theorem IsValidHTML_close_on_empty_stack_panics rest :
  IsValidHTML ("</b>" +:+ rest) = Panic (IndexOutOfRange (-1) 0).
Proof.
  assert (Hlen : len ("</b>" +:+ rest) = 4 + len rest) by apply len_app.
  assert (Hlt : IndexByte ("</b>" +:+ rest) "<" = Some 0) by done.
  assert (Hgt : IndexByte ("</b>" +:+ rest) ">" = Some 3) by done.
  assert (Htag : take 2 (drop 1 ("</b>" +:+ rest)) = "/b") by done.
  remember ("</b>" +:+ rest) as s eqn:Hs. clear Hs.
  assert (Hbody : IsValidHTML_body s 0 [] = Panic (IndexOutOfRange (-1) 0)).
  { unfold IsValidHTML_body. rewrite slice_all. cbn [mbind outcome_bind].
    rewrite Hlt. cbn [mbind outcome_bind Nat.add].
    rewrite !(decide_False (P := 0 < 0)) by lia. cbn [mbind outcome_bind].
    rewrite decide_False by (intros []; lia).
    rewrite slice_all. cbn [mbind outcome_bind]. rewrite Hgt.
    rewrite slice_Return by lia. cbn [mbind outcome_bind Nat.add Nat.sub].
    rewrite Htag. done. }
  unfold IsValidHTML. rewrite Hlen. cbn [IsValidHTML_loop Nat.add].
  rewrite decide_True by lia.
  by rewrite Hbody.
Qed.

(** On an empty stack no turn of the loop returns the mismatch error. *)
Lemma IsValidHTML_body_empty_stack_no_mismatch s offset last expected :
  IsValidHTML_body s offset [] ≠ Return (Fail (ErrMismatch last expected)).
Proof.
  unfold IsValidHTML_body. intros H.
  outcome_cases H; simplify_eq.
Qed.

(** ** Closing brackets outside tags *)

Lemma IsValidHTML_body_closing_before_opening s offset tags :
  IsValidHTML_body s offset tags = Return (Fail ErrClosingBeforeOpening) →
  ∃ i j, i < j ∧ at_index s i = Some ">"%char ∧ at_index s j = Some "<"%char.
Proof.
  unfold IsValidHTML_body. intros H.
  destruct (slice s offset (len s)) as [rest|] eqn:Hrest; [|done].
  apply slice_inv in Hrest as (_ & _ & Hrest).
  rewrite <-len_drop, take_len in Hrest. subst rest.
  cbn [mbind outcome_bind] in H.
  destruct (IndexByte (drop offset s) "<") as [start0|] eqn:Hlt; [|done].
  apply IndexByte_Some in Hlt. rewrite at_index_drop in Hlt.
  destruct (decide (offset < start0 + offset)) as [Hgap|Hgap];
    cbn [mbind outcome_bind] in H.
  - destruct (slice s offset (start0 + offset)) as [gap|] eqn:Egap; [|done].
    apply slice_inv in Egap as (_ & Hle & ->).
    cbn [mbind outcome_bind] in H.
    destruct (decide _) as [[_ Hgt]|_] in H.
    + destruct (IndexByte _ ">") as [k|] eqn:Hk in Hgt; [|done].
      apply IndexByte_Some in Hk.
      assert (k < start0 + offset - offset).
      { apply at_index_lt in Hk. rewrite len_take in Hk; [done|].
        rewrite len_drop. lia. }
      rewrite at_index_take, at_index_drop in Hk by done.
      exists (offset + k), (offset + start0). split_and!; [lia|done..].
    + outcome_cases H; simplify_eq.
  - rewrite decide_False in H by (intros []; lia).
    outcome_cases H; simplify_eq.
Qed.

Lemma IsValidHTML_loop_closing_before_opening fuel s offset tags :
  IsValidHTML_loop fuel s offset tags
    = Some (Return (Some ErrClosingBeforeOpening)) →
  ∃ i j, i < j ∧ at_index s i = Some ">"%char ∧ at_index s j = Some "<"%char.
Proof.
  revert offset tags. induction fuel as [|fuel IH]; intros offset tags; simpl.
  - case_decide; [done|]. unfold IsValidHTML_end. by case_decide.
  - case_decide; [|unfold IsValidHTML_end; by case_decide].
    destruct (IsValidHTML_body s offset tags) as [[|e|offset' tags']|] eqn:E.
    + unfold IsValidHTML_end. by case_decide.
    + intros [= ->]. by eapply IsValidHTML_body_closing_before_opening.
    + apply IH.
    + done.
Qed.

(** A text without [<] is valid, whatever else it holds. *)
Lemma IsValidHTML_no_opening_bracket s :
  (∀ i, at_index s i ≠ Some "<"%char) → IsValidHTML s = Return None.
Proof.
  intros Hs%IndexByte_None. unfold IsValidHTML.
  destruct s as [|c s]; [done|].
  cbn [len String.length IsValidHTML_loop].
  rewrite decide_True by (simpl; lia).
  unfold IsValidHTML_body.
  change (S (String.length s)) with (len (String c s)).
  rewrite slice_all. cbn [mbind outcome_bind]. by rewrite Hs.
Qed.

(** Text without [<] after the text scanned does not change a turn of the
    loop, unless the turn ended for want of a [>]. *)
Lemma IsValidHTML_body_app s t offset tags :
  offset < len s →
  IsValidHTML_body s offset tags ≠ Return (Fail ErrNoClosingBracket) →
  IsValidHTML_body (s +:+ t) offset tags = IsValidHTML_body s offset tags
  ∨ (IndexByte (drop offset s) "<" = None
     ∧ IsValidHTML_body s offset tags = Return Break).
Proof.
  intros Hoffset. unfold IsValidHTML_body.
  rewrite !slice_from by (rewrite ?len_app; lia).
  cbn [mbind outcome_bind]. rewrite drop_app_le by lia.
  destruct (IndexByte (drop offset s) "<") as [start0|] eqn:Hlt; [|by right].
  intros Hs. left.
  rewrite (IndexByte_app_Some _ _ _ _ Hlt).
  assert (Hstart : start0 + offset < len s).
  { apply IndexByte_lt in Hlt. rewrite len_drop in Hlt. lia. }
  assert (Hopen : at_index s (start0 + offset) = Some "<"%char).
  { apply IndexByte_Some in Hlt. rewrite at_index_drop in Hlt.
    by rewrite Nat.add_comm. }
  set (start := start0 + offset) in *.
  assert (Hgap : (if decide (offset < start) then slice (s +:+ t) offset start
                  else Return "")
                 = (if decide (offset < start) then slice s offset start
                    else Return "")).
  { case_decide; [|done]. apply slice_app_le; lia. }
  rewrite Hgap. clear Hgap.
  destruct (if decide (offset < start) then slice s offset start else Return "")
    as [gap|p]; cbn [mbind outcome_bind] in *; [|done].
  destruct (decide (offset < start ∧ IndexByte gap ">" ≠ None)); [done|].
  rewrite !slice_from in * by (rewrite ?len_app; lia).
  cbn [mbind outcome_bind] in *. rewrite drop_app_le by lia.
  destruct (IndexByte (drop start s) ">") as [end0|] eqn:Hgt; [|done].
  rewrite (IndexByte_app_Some _ _ _ _ Hgt).
  assert (Hend : end0 + start < len s).
  { apply IndexByte_lt in Hgt. rewrite len_drop in Hgt. lia. }
  assert (end0 ≠ 0).
  { intros ->. apply IndexByte_Some in Hgt.
    rewrite at_index_drop, Nat.add_0_r in Hgt. congruence. }
  assert (Hoff : (if decide (offset < start) then start else offset) = start).
  { case_decide; [done|]. unfold start in *. lia. }
  rewrite Hoff. rewrite slice_app_le by lia. done.
Qed.

Lemma IsValidHTML_loop_app fuel1 fuel2 s t offset tags r :
  (∀ i, at_index t i ≠ Some "<"%char) →
  IsValidHTML_loop fuel1 s offset tags = Some r →
  r ≠ Return (Some ErrNoClosingBracket) →
  len (s +:+ t) - offset ≤ fuel2 →
  IsValidHTML_loop fuel2 (s +:+ t) offset tags = Some r.
Proof.
  intros Ht. revert fuel2 offset tags.
  assert (Hend : ∀ fuel2 offset tags,
            len s ≤ offset ∨ IndexByte (drop offset s) "<" = None →
            len (s +:+ t) - offset ≤ fuel2 →
            IsValidHTML_loop fuel2 (s +:+ t) offset tags
            = Some (Return (IsValidHTML_end tags))).
  { intros fuel2 offset tags Hoff Hfuel.
    destruct fuel2 as [|fuel2]; cbn [IsValidHTML_loop].
    - by rewrite decide_False by lia.
    - case_decide as Hlt; [|done].
      unfold IsValidHTML_body. rewrite slice_from by lia.
      cbn [mbind outcome_bind].
      assert (IndexByte (drop offset (s +:+ t)) "<" = None) as ->; [|done].
      destruct (decide (offset ≤ len s)).
      + rewrite drop_app_le by done. apply IndexByte_app_None.
        * destruct Hoff as [?|?]; [|done].
          apply IndexByte_None. intros i Hi%at_index_lt.
          rewrite len_drop in Hi. lia.
        * by apply IndexByte_None.
      + apply IndexByte_None. intros i.
        rewrite at_index_drop, at_index_app_r by lia. apply Ht. }
  induction fuel1 as [|fuel1 IH]; intros fuel2 offset tags;
    cbn [IsValidHTML_loop].
  - case_decide; [done|]. intros [= <-] _ ?. apply Hend; [lia|done].
  - case_decide as Hoff; [|intros [= <-] _ ?; apply Hend; [lia|done]].
    intros Hloop Hr Hfuel.
    destruct (IsValidHTML_body_app s t offset tags Hoff) as [Happ|[Hnone Hb]].
    + intros Hb. rewrite Hb in Hloop. by simplify_eq.
    + destruct fuel2 as [|fuel2]; [rewrite len_app in Hfuel; lia|].
      cbn [IsValidHTML_loop]. rewrite decide_True by (rewrite len_app; lia).
      rewrite Happ.
      destruct (IsValidHTML_body s offset tags) as [[|e|offset' tags']|p] eqn:E;
        try done.
      apply IH; [done..|]. apply IsValidHTML_body_Next in E. lia.
    + rewrite Hb in Hloop. simplify_eq. apply Hend; [by right|done].
Qed.

(** Text without [<] after a text [s] is not looked at. *)
Lemma IsValidHTML_app s t :
  (∀ i, at_index t i ≠ Some "<"%char) →
  IsValidHTML s ≠ Return (Some ErrNoClosingBracket) →
  IsValidHTML (s +:+ t) = IsValidHTML s.
Proof.
  intros Ht Hs. unfold IsValidHTML at 1.
  by rewrite (IsValidHTML_loop_app (len s) _ s t 0 [] (IsValidHTML s))
    by (done || apply IsValidHTML_loop_eq || lia).
Qed.

(** C10, as the code has it: a text with no [<] at all (["1 > 0"],
    ["a>"]) is accepted; more generally text with no [<] that follows a
    text [s] is not looked at, so that the result is that of [s], unless
    [s] ends inside a tag; and the error "found closing bracket before an
    opening bracket" is returned only for a text in which a [<] stands
    after a [>]. *)
Theorem IsValidHTML_stray_closing_bracket s :
  ((∀ i, at_index s i ≠ Some "<"%char) → IsValidHTML s = Return None)
  ∧ (∀ t, (∀ i, at_index t i ≠ Some "<"%char) →
       IsValidHTML s ≠ Return (Some ErrNoClosingBracket) →
       IsValidHTML (s +:+ t) = IsValidHTML s)
  ∧ (IsValidHTML s = Return (Some ErrClosingBeforeOpening) →
     ∃ i j, i < j ∧ at_index s i = Some ">"%char
                  ∧ at_index s j = Some "<"%char).
Proof.
  split_and!.
  - apply IsValidHTML_no_opening_bracket.
  - intros t. apply IsValidHTML_app.
  - intros H. apply (IsValidHTML_loop_closing_before_opening (len s) s 0 []).
    by rewrite IsValidHTML_loop_eq, H.
Qed.

Lemma IsValidHTML_stray_closing_bracket_witness :
  IsValidHTML "1 > 0" = Return None
  ∧ IsValidHTML ("<b>x</b>" +:+ " > 0") = IsValidHTML "<b>x</b>"
  ∧ ∃ i j, i < j ∧ at_index "a> <b" i = Some ">"%char
                 ∧ at_index "a> <b" j = Some "<"%char.
Proof.
  split_and!.
  - apply (proj1 (IsValidHTML_stray_closing_bracket "1 > 0")).
    intros i. do 5 (destruct i as [|i]; [done|]). done.
  - apply (proj1 (proj2 (IsValidHTML_stray_closing_bracket "<b>x</b>"))).
    + intros i. do 4 (destruct i as [|i]; [done|]). done.
    + discriminate.
  - apply (proj2 (proj2 (IsValidHTML_stray_closing_bracket "a> <b"))).
    reflexivity.
Defined.

(** C10 as stated fails: in ["<b> 1 > 0"] the [>] at index 6 has no [<]
    at or after it, and the validator returns the error for the unclosed
    [b]. *)
Lemma IsValidHTML_stray_closing_bracket_counterexample :
  at_index "<b> 1 > 0" 6 = Some ">"%char
  ∧ (∀ j, 6 ≤ j → at_index "<b> 1 > 0" j ≠ Some "<"%char)
  ∧ IsValidHTML "<b> 1 > 0" = Return (Some (ErrNotAllClosed ["b"]))
  ∧ IsValidHTML "<b> 1 > 0" ≠ Return None.
Proof.
  split_and!.
  - done.
  - intros j Hj. do 6 (destruct j as [|j]; [lia|]).
    do 3 (destruct j as [|j]; [done|]). done.
  - done.
  - done.
Qed.

(** ** The scanner, line by line *)

Lemma role_eq line k j :
  line = 8 * k + j + 1 → j < 8 → (line - 1) mod (EntryEnd + 1) = j.
Proof.
  intros -> Hj. unfold EntryEnd.
  replace (8 * k + j + 1 - 1) with (j + k * 8) by lia.
  rewrite Nat.Div0.mod_add. by apply Nat.mod_small.
Qed.

Lemma scan_app l1 l2 line entries current :
  scan (l1 ++ l2) line entries current =
  r ← scan l1 line entries current;
  match r with
  | Continue entries current => scan l2 (line + length l1) entries current
  | Stop entries err => Return (Stop entries err)
  end.
Proof.
  revert line entries current.
  induction l1 as [|data l1 IH]; intros line entries current; simpl.
  - by rewrite Nat.add_0_r.
  - destruct (scan_line line data entries current) as [[e c|e err]|p];
      simpl; [|done..].
    rewrite IH. by replace (S line + length l1) with (line + S (length l1)) by lia.
Qed.

(** Only the terminator line writes to the storage. *)
Lemma scan_line_entries line data entries current r :
  (line - 1) mod (EntryEnd + 1) ≠ EntryEnd →
  scan_line line data entries current = Return r →
  step_entries r = entries.
Proof.
  unfold scan_line, EntryEnd at 2. intros Hrole H.
  destruct ((line - 1) mod (EntryEnd + 1)) as [|[|[|[|[|[|[|[|n]]]]]]]];
    try done; try (by simplify_eq).
  - unfold case_EntryID in H. outcome_cases H; by simplify_eq.
  - unfold case_EntryUsage, check_html in H. outcome_cases H; by simplify_eq.
  - unfold case_EntryTranslation, check_html in H.
    outcome_cases H; by simplify_eq.
Qed.

Lemma scan_partial_entries g n entries current r :
  n mod (EntryEnd + 1) + length g ≤ EntryEnd →
  scan g (S n) entries current = Return r →
  step_entries r = entries.
Proof.
  change (EntryEnd + 1) with 8. unfold EntryEnd.
  revert n current. induction g as [|data g IH]; intros n current Hn;
    cbn [scan length] in *.
  - by intros [= <-].
  - assert (Hrole : (S n - 1) mod (EntryEnd + 1) ≠ EntryEnd).
    { change (EntryEnd + 1) with 8. unfold EntryEnd.
      replace (S n - 1) with n by lia. lia. }
    destruct (scan_line (S n) data entries current) as [[e c|e err]|p] eqn:E;
      cbn [mbind outcome_bind]; [| |done].
    + apply (scan_line_entries _ _ _ _ _ Hrole) in E as Ee.
      cbn [step_entries] in Ee. subst e. apply IH.
      assert (S n mod 8 = n mod 8 + 1); [|lia].
      rewrite (Nat.div_mod_eq n 8) at 1.
      replace (S (8 * (n / 8) + n mod 8))
        with ((n mod 8 + 1) + (n / 8) * 8) by lia.
      rewrite Nat.Div0.mod_add. apply Nat.mod_small. lia.
    + intros [= <-]. by apply (scan_line_entries _ _ _ _ _ Hrole) in E.
Qed.

(** ** The ID line *)

(** What [case EntryID] does with a line of at least four bytes whose
    first four bytes are an integer. *)
Lemma case_EntryID_accepts line data entries current v :
  4 ≤ len data → ParseInt (take 4 data) = inl v →
  case_EntryID line data entries current =
  Return (Continue entries
    (mkEntry v
       (bool_decide (5 ≤ len data)
        && bool_decide (at_index data 4 = Some EntryDirtyMarker))
       (if decide (7 ≤ len data) then [drop 6 data] else [])
       (input current) (usage current) (translation current) (word current)
       (pronunciation current) (definition current) (tags current))).
Proof.
  intros Hlen Hparse. unfold case_EntryID.
  change (digitsOffset + 1) with 4. change (dirtyOffset + 1) with 5.
  change (commentOffset + 1) with 7. change dirtyOffset with 4.
  change commentOffset with 6.
  rewrite decide_False by lia. rewrite (slice_Return data 0 4) by lia.
  cbn [mbind outcome_bind]. rewrite drop_0, Nat.sub_0_r, Hparse.
  destruct (decide (7 ≤ len data)); [|done].
  rewrite slice_from by lia. done.
Qed.

Lemma scan_line_EntryID line data entries current :
  (line - 1) mod (EntryEnd + 1) = EntryID →
  scan_line line data entries current = case_EntryID line data entries current.
Proof. unfold scan_line. by intros ->. Qed.

(** C3, as the code has it: on an ID line of at least four bytes whose
    first four bytes are an integer, the record starts dirty exactly when
    the line has at least five bytes and the byte at index 4 (the fifth,
    [dirtyOffset]) is the marker [*]. *)
Theorem ID_line_dirty_marker line data entries current v :
  (line - 1) mod (EntryEnd + 1) = EntryID →
  4 ≤ len data → ParseInt (take 4 data) = inl v →
  ∃ current',
    scan_line line data entries current = Return (Continue entries current')
    ∧ id current' = v
    ∧ (dirty current' = true
       ↔ 5 ≤ len data ∧ at_index data 4 = Some EntryDirtyMarker).
Proof.
  intros Hrole Hlen Hparse.
  rewrite scan_line_EntryID, (case_EntryID_accepts _ _ _ _ v) by done.
  eexists; split_and!; [done..|]. cbn [dirty].
  rewrite andb_true_iff, !bool_decide_eq_true. done.
Qed.

Lemma ID_line_dirty_marker_witness :
  ∃ current',
    scan_line 1 "0001*" Entries_zero Entry_zero
      = Return (Continue Entries_zero current')
    ∧ id current' = 1%Z
    ∧ (dirty current' = true
       ↔ 5 ≤ len "0001*" ∧ at_index "0001*" 4 = Some EntryDirtyMarker).
Proof.
  apply (ID_line_dirty_marker 1 "0001*" Entries_zero Entry_zero 1%Z);
    [reflexivity | simpl; lia | reflexivity].
Defined.

(** C3 as stated fails: the first four bytes of ["0001*"] are an integer
    and the byte at index 3 is [1], not the marker, yet the record starts
    dirty. *)
Lemma ID_line_dirty_marker_counterexample :
  4 ≤ len "0001*"
  ∧ ParseInt (take 4 "0001*") = inl 1%Z
  ∧ at_index "0001*" 3 = Some "1"%char
  ∧ (∃ current',
       scan_line 1 "0001*" Entries_zero Entry_zero
         = Return (Continue Entries_zero current')
       ∧ dirty current' = true
       ∧ ¬ (dirty current' = true
            ↔ at_index "0001*" 3 = Some EntryDirtyMarker)).
Proof.
  split_and!; [simpl; lia | done | done |].
  eexists; split_and!; [reflexivity | done |].
  cbn [dirty]. intros [H _]. by specialize (H eq_refl).
Qed.

(** C4, as the code has it: on such an ID line of at least seven bytes
    the text from offset 6 ([commentOffset]) on is the one comment the
    record starts with; a shorter ID line starts it with none. *)
Theorem ID_line_inline_comment line data entries current v :
  (line - 1) mod (EntryEnd + 1) = EntryID →
  4 ≤ len data → ParseInt (take 4 data) = inl v →
  ∃ current',
    scan_line line data entries current = Return (Continue entries current')
    ∧ (7 ≤ len data → comments current' = [drop 6 data])
    ∧ (len data < 7 → comments current' = []).
Proof.
  intros Hrole Hlen Hparse.
  rewrite scan_line_EntryID, (case_EntryID_accepts _ _ _ _ v) by done.
  eexists; split_and!; [done|..]; cbn [comments]; intros ?.
  - by rewrite decide_True.
  - by rewrite decide_False by lia.
Qed.

Lemma ID_line_inline_comment_witness :
  ∃ current',
    scan_line 1 "0001* hello" Entries_zero Entry_zero
      = Return (Continue Entries_zero current')
    ∧ (7 ≤ len "0001* hello" → comments current' = [drop 6 "0001* hello"])
    ∧ (len "0001* hello" < 7 → comments current' = []).
Proof.
  apply (ID_line_inline_comment 1 "0001* hello" Entries_zero Entry_zero 1%Z);
    [reflexivity | simpl; lia | reflexivity].
Defined.

(** C4 as stated fails: on ["0001* hello"] the comment is ["hello"], the
    text from offset 6, not the text [" hello"] from offset 5; and
    ["0001*x"] has a byte after index 4 but starts with no comment. *)
Lemma ID_line_inline_comment_counterexample :
  (∃ current',
     scan_line 1 "0001* hello" Entries_zero Entry_zero
       = Return (Continue Entries_zero current')
     ∧ comments current' = ["hello"]
     ∧ drop 5 "0001* hello" = " hello"
     ∧ comments current' ≠ [drop 5 "0001* hello"])
  ∧ (∃ current',
       scan_line 1 "0001*x" Entries_zero Entry_zero
         = Return (Continue Entries_zero current')
       ∧ at_index "0001*x" 5 = Some "x"%char
       ∧ comments current' = []).
Proof.
  split; eexists; split_and!; try reflexivity. done.
Qed.

(** ** Well-formed streams *)

Lemma FindStringSubmatch_shape s l :
  FindStringSubmatch s = Some l → ∃ m g, l = [m; g].
Proof.
  induction s as [|c s IH]; cbn [FindStringSubmatch].
  - destruct (match_here "") as [[m g]|]; [|done]. intros [= <-]. eauto.
  - destruct (match_here (String c s)) as [[m g]|]; [|done].
    intros [= <-]. eauto.
Qed.

Lemma Entries_set_in_range entries i e :
  (0 ≤ i < 2200)%Z →
  Entries_set entries i e = Return (<[Z.to_nat i := e]> entries).
Proof.
  intros Hi. unfold Entries_set.
  change (Z.of_nat Entries_len) with 2200%Z. by rewrite decide_True.
Qed.

Lemma length_Entries_zero : Z.of_nat (length Entries_zero) = 2200%Z.
Proof. unfold Entries_zero. by rewrite length_replicate. Qed.

Lemma scan_line_role line k j data entries current :
  line = 8 * k + j + 1 → j < 8 →
  scan_line line data entries current =
  match j with
  | 0 => case_EntryID line data entries current
  | 1 => case_EntryUsage data entries current
  | 2 => case_EntryTranslation data entries current
  | 3 => Return (Continue entries (set_word current data))
  | 4 => Return (Continue entries (set_pronunciation current data))
  | 5 => Return (Continue entries (set_definition current data))
  | 6 => Return (Continue entries (set_tags current (Split data ",")))
  | 7 => case_EntryEnd line data entries current
  | _ => Return (Continue entries current)
  end.
Proof. intros Hline Hj. unfold scan_line. by rewrite (role_eq line k j). Qed.

(** The scan of a clean group: its record is written at [id-1]. *)
Lemma scan_clean_group g k entries current rest :
  clean g →
  scan (lines g ++ rest) (8 * k + 1) entries current =
  entries' ← Entries_set entries (group_id g - 1) (record_of g);
  scan rest (8 * (k + 1) + 1) entries' Entry_zero.
Proof.
  intros ([Hlen4 Hlen7] & (v & Hparse) & Hmark & [lu Hu] & Hhu
          & [ltr Ht] & Hht).
  destruct (FindStringSubmatch_shape _ _ Hu) as (mu & gu & ->).
  unfold lines. cbn [app scan].
  (* the ID line *)
  rewrite (scan_line_role (8 * k + 1) k 0) by lia.
  rewrite (case_EntryID_accepts _ _ _ _ v) by done.
  rewrite (bool_decide_eq_false_2 (at_index _ 4 = _)) by done.
  rewrite andb_false_r.
  rewrite (decide_False (P := 7 ≤ len (id_line g))) by lia.
  simpl_entry.
  (* the prompt *)
  rewrite (scan_line_role (S (8 * k + 1)) k 1) by lia.
  unfold case_EntryUsage, check_html. rewrite Hu, Hhu. simpl_entry.
  (* the translation *)
  rewrite (scan_line_role (S (S (8 * k + 1))) k 2) by lia.
  unfold case_EntryTranslation, check_html. rewrite Ht, Hht. simpl_entry.
  (* the four plain lines *)
  rewrite (scan_line_role (S (S (S (8 * k + 1)))) k 3) by lia. simpl_entry.
  rewrite (scan_line_role (S (S (S (S (8 * k + 1))))) k 4) by lia.
  simpl_entry.
  rewrite (scan_line_role (S (S (S (S (S (8 * k + 1)))))) k 5) by lia.
  simpl_entry.
  rewrite (scan_line_role (S (S (S (S (S (S (8 * k + 1))))))) k 6) by lia.
  simpl_entry.
  (* the terminator *)
  rewrite (scan_line_role (S (S (S (S (S (S (S (8 * k + 1)))))))) k 7) by lia.
  unfold case_EntryEnd. rewrite decide_False by (by intros []).
  simpl_entry. unfold record_of, group_id, cloze. rewrite Hparse, Hu.
  destruct (Entries_set _ _ _); simpl_entry; [|done].
  f_equal. lia.
Qed.

Lemma scan_well_formed_group g k entries current rest :
  well_formed g →
  scan (lines g ++ rest) (8 * k + 1) entries current =
  scan rest (8 * (k + 1) + 1) (commit entries (record_of g)) Entry_zero.
Proof.
  intros [Hclean Hid]. rewrite scan_clean_group by done.
  rewrite Entries_set_in_range by lia. done.
Qed.

(** A clean group whose id is not the number of a slot: the write at the
    terminator panics. *)
Lemma scan_clean_group_out_of_range g rest scanErr :
  clean g → ¬ (1 ≤ group_id g ≤ 2200)%Z →
  NewEntriesFromFile (lines g ++ rest) scanErr
  = Panic (IndexOutOfRange (group_id g - 1) 2200).
Proof.
  intros Hclean Hid. unfold NewEntriesFromFile.
  change 1 with (8 * 0 + 1) at 1. rewrite scan_clean_group by done.
  unfold Entries_set. change (Z.of_nat Entries_len) with 2200%Z.
  by rewrite decide_False by (cbn [record_of id]; lia).
Qed.

Lemma scan_well_formed gs k entries current :
  Forall well_formed gs →
  ∃ current',
    scan (gs ≫= lines) (8 * k + 1) entries current
    = Return (Continue (foldl commit entries (record_of <$> gs)) current').
Proof.
  intros Hgs. revert k entries current.
  induction Hgs as [|g gs Hg _ IH]; intros k entries current.
  - by exists current.
  - rewrite bind_cons, scan_well_formed_group by done. apply IH.
Qed.

Lemma length_commit entries r : length (commit entries r) = length entries.
Proof. apply length_insert. Qed.

Lemma foldl_commit_lookup_ne rs entries i :
  (∀ r, r ∈ rs → Z.to_nat (id r - 1) ≠ i) →
  foldl commit entries rs !! i = entries !! i.
Proof.
  revert entries. induction rs as [|r rs IH]; intros entries Hrs; [done|].
  cbn [foldl]. rewrite IH by (intros; apply Hrs; by constructor).
  unfold commit. apply list_lookup_insert_ne, Hrs. by constructor.
Qed.

Lemma foldl_commit_lookup rs entries k r :
  Forall (λ r, 1 ≤ id r ≤ Z.of_nat (length entries))%Z rs →
  rs !! k = Some r →
  (∀ k' r', k < k' → rs !! k' = Some r' → id r' ≠ id r) →
  foldl commit entries rs !! Z.to_nat (id r - 1) = Some r.
Proof.
  revert entries k. induction rs as [|r0 rs IH]; intros entries k Hrs Hk Hlast;
    [done|].
  apply Forall_cons in Hrs as [Hr0 Hrs]. cbn [foldl].
  destruct k as [|k]; simplify_eq/=.
  - rewrite foldl_commit_lookup_ne.
    + unfold commit. apply list_lookup_insert_eq. lia.
    + intros r' [k' Hk']%list_elem_of_lookup Heq.
      apply (Hlast (S k') r'); [lia|done|].
      rewrite Forall_lookup in Hrs. specialize (Hrs _ _ Hk'). simpl in Hrs. lia.
  - apply (IH _ k); [by rewrite length_commit|done|].
    intros k' r' ? ?. apply (Hlast (S k') r'); [lia|done].
Qed.

Lemma well_formed_id g :
  well_formed g → (1 ≤ group_id g ≤ 2200)%Z.
Proof. by intros [_ ?]. Qed.

(** C1, as the code has it: a stream of well-formed groups, each ended
    by [---], is scanned without an error; every group leaves its clean
    record (not dirty, no comments) in slot [id-1], where it stays unless a
    later group has the same id, and the other slots keep the zero
    record. *)
Theorem well_formed_stream gs :
  Forall well_formed gs →
  ∃ entries,
    NewEntriesFromFile (gs ≫= lines) None = Return (entries, None)
    ∧ entries = foldl commit Entries_zero (record_of <$> gs)
    ∧ (∀ k g, gs !! k = Some g →
         (∀ k' g', k < k' → gs !! k' = Some g' → group_id g' ≠ group_id g) →
         ∃ r, entries !! Z.to_nat (group_id g - 1) = Some r
              ∧ r = record_of g ∧ id r = group_id g
              ∧ dirty r = false ∧ comments r = [])
    ∧ (∀ i, i < Entries_len →
         (∀ g, g ∈ gs → Z.to_nat (group_id g - 1) ≠ i) →
         entries !! i = Some Entry_zero).
Proof.
  intros Hgs.
  destruct (scan_well_formed gs 0 Entries_zero Entry_zero Hgs) as [c Hscan].
  exists (foldl commit Entries_zero (record_of <$> gs)).
  split_and!; [|done|..].
  - unfold NewEntriesFromFile. change 1 with (8 * 0 + 1). by rewrite Hscan.
  - intros k g Hk Hlast. exists (record_of g). split_and!; try done.
    apply (foldl_commit_lookup _ _ k (record_of g)).
    + apply Forall_fmap. eapply Forall_impl; [done|].
      intros g' Hg'%well_formed_id. rewrite length_Entries_zero.
      by cbn [record_of id].
    + by rewrite list_lookup_fmap, Hk.
    + intros k' r'. rewrite list_lookup_fmap.
      destruct (gs !! k') as [g'|] eqn:Hk'; [|done].
      intros ? [= <-]. simpl. by eapply Hlast.
  - intros i Hi Hfree. rewrite foldl_commit_lookup_ne.
    + unfold Entries_zero. by apply lookup_replicate_2.
    + intros r (g & -> & Hg)%list_elem_of_fmap. by apply Hfree.
Qed.

Lemma well_formed_stream_witness :
  ∃ entries,
    NewEntriesFromFile
      ([mkGroup "0001" "a {{c1::x}} <b>y</b>" "t {{c1::z}}" "w" "p" "d" "t1,t2"]
         ≫= lines) None = Return (entries, None)
    ∧ entries !! 0 =
      Some (mkEntry 1 false [] "x" "a {{c1::x}} <b>y</b>" "t {{c1::z}}"
              "w" "p" "d" ["t1"; "t2"]).
Proof.
  destruct (well_formed_stream
    [mkGroup "0001" "a {{c1::x}} <b>y</b>" "t {{c1::z}}" "w" "p" "d" "t1,t2"])
    as (entries & Hrun & _ & Hslot & _).
  - constructor; [|constructor].
    unfold well_formed, clean, group_id; simpl.
    split_and!; try lia; try done; eauto.
  - exists entries. split; [exact Hrun|].
    destruct (Hslot 0 _ eq_refl) as (r & Hr & -> & _).
    + intros k' g' Hk'. destruct k'; [lia | done].
    + exact Hr.
Defined.

(** C1 as stated fails: the group below follows the role cycle, ends
    with [---], and its prompt and translation hold a cloze deletion and
    pass the validator; its ID line carries the marker and a comment, so
    the record in slot 0 is dirty and has a comment. *)
Lemma well_formed_stream_counterexample :
  is_Some (FindStringSubmatch "a {{c1::x}}")
  ∧ IsValidHTML "a {{c1::x}}" = Return None
  ∧ is_Some (FindStringSubmatch "t {{c1::z}}")
  ∧ IsValidHTML "t {{c1::z}}" = Return None
  ∧ ∃ entries,
      NewEntriesFromFile
        ["0001* check"; "a {{c1::x}}"; "t {{c1::z}}"; "w"; "p"; "d"; "t";
         "---"] None = Return (entries, None)
      ∧ entries !! 0 =
        Some (mkEntry 1 true ["check"] "x" "a {{c1::x}}" "t {{c1::z}}"
                "w" "p" "d" ["t"]).
Proof.
  split_and!; [by eexists | done | by eexists | done |].
  eexists. split; [vm_compute; reflexivity | reflexivity].
Qed.

(** ** The terminator line *)

Lemma NewEntriesFromFile_accepts ls entries :
  NewEntriesFromFile ls None = Return (entries, None) ↔
  ∃ current, scan ls 1 Entries_zero Entry_zero = Return (Continue entries current).
Proof.
  unfold NewEntriesFromFile.
  destruct (scan ls 1 Entries_zero Entry_zero) as [[e c|e err]|p];
    cbn [mbind outcome_bind]; split; try done.
  - intros [= <-]. eauto.
  - by intros [c' [= <- _]].
  - by intros [c' [=]].
  - by intros [c' [=]].
Qed.

Lemma length_groups (ls : list string) :
  length ls mod 8 = 0 → length ls = 8 * (length ls / 8).
Proof. intros H. pose proof (Nat.div_mod_eq (length ls) 8). lia. Qed.

(** C5, as the code has it: when the lines before a terminator-role line
    are scanned without an error and that line is not [---], the scanner
    returns the error that names the line found and the delimiter
    expected, at that line's number, together with the storage as the
    earlier, terminated groups left it. *)
Theorem terminator_mismatch pre g t rest scanErr entries :
  length pre mod 8 = 0 → length g = 7 → t ≠ EntryDelimiter →
  NewEntriesFromFile (pre ++ g) None = Return (entries, None) →
  NewEntriesFromFile (pre ++ g ++ t :: rest) scanErr =
    Return (entries, Some (ParseError (mkEntriesParseError (length pre + 8) t
      (Sprintf "line %d: unexpected end of entry. found: %q, expected: %q"
         [ArgInt (Z.of_nat (length pre + 8)); ArgQuoted t;
          ArgQuoted EntryDelimiter]))))
  ∧ NewEntriesFromFile pre None = Return (entries, None).
Proof.
  intros Hpre%length_groups Hg Ht [c Hscan]%NewEntriesFromFile_accepts.
  split.
  - unfold NewEntriesFromFile. rewrite app_assoc, scan_app, Hscan.
    cbn [mbind outcome_bind scan].
    rewrite (scan_line_role _ (length pre / 8) 7)
      by (rewrite ?length_app; lia).
    unfold case_EntryEnd. rewrite decide_True by done.
    cbn [mbind outcome_bind].
    by replace (1 + length (pre ++ g)) with (length pre + 8)
      by (rewrite length_app; lia).
  - apply NewEntriesFromFile_accepts.
    rewrite scan_app in Hscan.
    destruct (scan pre 1 Entries_zero Entry_zero) as [[e0 c0|e0 err]|p];
      cbn [mbind outcome_bind] in Hscan; [|done..].
    apply scan_partial_entries in Hscan as Hentries.
    + cbn [step_entries] in Hentries. subst e0. eauto.
    + change (EntryEnd + 1) with 8. unfold EntryEnd.
      rewrite Hpre, Nat.mul_comm, Nat.Div0.mod_mul. lia.
Qed.

Lemma terminator_mismatch_witness :
  NewEntriesFromFile
    ([] ++ ["0001"; "a {{c1::x}}"; "t {{c1::z}}"; "w"; "p"; "d"; "t"]
        ++ "--" :: ["0002"]) None =
    Return (Entries_zero, Some (ParseError (mkEntriesParseError 8 "--"
      (Sprintf "line %d: unexpected end of entry. found: %q, expected: %q"
         [ArgInt 8; ArgQuoted "--"; ArgQuoted EntryDelimiter]))))
  ∧ NewEntriesFromFile [] None = Return (Entries_zero, None).
Proof.
  apply (terminator_mismatch []
           ["0001"; "a {{c1::x}}"; "t {{c1::z}}"; "w"; "p"; "d"; "t"]
           "--" ["0002"] None Entries_zero);
    [reflexivity | reflexivity | discriminate | vm_compute; reflexivity].
Defined.

(** C5 as stated fails: in the stream below the terminator-role line 8
    is not [---], but the scan stops at line 1, whose error names neither
    the line found at the terminator nor the delimiter. *)
Lemma terminator_mismatch_counterexample :
  ["abc"; "a"; "t"; "w"; "p"; "d"; "t"; "oops"] !! 7 = Some "oops"
  ∧ "oops" ≠ EntryDelimiter
  ∧ NewEntriesFromFile ["abc"; "a"; "t"; "w"; "p"; "d"; "t"; "oops"] None =
      Return (Entries_zero, Some (ParseError (mkEntriesParseError 1 "abc"
        (Sprintf
           "line %d: entry ID too short: %q: found %d digits, expected %d digits"
           [ArgInt 1; ArgQuoted "abc"; ArgInt 3; ArgInt 4])))).
Proof. split_and!; [done | done | vm_compute; reflexivity]. Qed.

(** ** A stream that ends inside a group *)

Lemma check_html_returns data current r :
  IsValidHTML data = Return r → ∃ current', check_html data current = Return current'.
Proof. intros H. unfold check_html. rewrite H. destruct r; simpl; eauto. Qed.

Lemma scan_line_ok line k j data entries current :
  line = 8 * k + j + 1 → j < 7 → line_ok j data →
  ∃ current', scan_line line data entries current
              = Return (Continue entries current').
Proof.
  intros Hline Hj Hok. rewrite (scan_line_role line k j) by lia.
  destruct j as [|[|[|[|[|[|[|j]]]]]]]; try lia; cbn [line_ok] in Hok; eauto.
  - destruct Hok as (Hlen & v & Hparse).
    rewrite (case_EntryID_accepts _ _ _ _ v) by done. eauto.
  - destruct Hok as [r Hr]. unfold case_EntryUsage.
    edestruct check_html_returns as [c' ->]; [done|]. simpl. eauto.
  - destruct Hok as [r Hr]. unfold case_EntryTranslation.
    edestruct check_html_returns as [c' ->]; [done|]. simpl. eauto.
Qed.

Lemma scan_partial tail k j entries current :
  j + length tail ≤ 7 →
  (∀ i data, tail !! i = Some data → line_ok (j + i) data) →
  ∃ current', scan tail (8 * k + j + 1) entries current
              = Return (Continue entries current').
Proof.
  revert j current. induction tail as [|data tail IH]; intros j current Hj Hok;
    cbn [scan length] in *; [eauto|].
  destruct (scan_line_ok (8 * k + j + 1) k j data entries current)
    as [c' ->]; [done|lia|..].
  { specialize (Hok 0 data eq_refl). by rewrite Nat.add_0_r in Hok. }
  cbn [mbind outcome_bind].
  replace (S (8 * k + j + 1)) with (8 * k + S j + 1) by lia.
  apply IH; [lia|]. intros i d Hi.
  replace (S j + i) with (j + S i) by lia. by apply Hok.
Qed.

(** C7, as the code has it: when the stream ends inside a group whose
    lines so far pass their role's checks ([partial_ok]), the result, the
    storage and the error alike, is that of the stream without those
    lines. *)
Theorem trailing_partial_group pre tail scanErr :
  length pre mod 8 = 0 → length tail < 8 → partial_ok tail →
  NewEntriesFromFile (pre ++ tail) scanErr = NewEntriesFromFile pre scanErr.
Proof.
  intros Hpre%length_groups Htail Hok. unfold NewEntriesFromFile.
  rewrite scan_app.
  destruct (scan pre 1 Entries_zero Entry_zero) as [[e c|e err]|p];
    cbn [mbind outcome_bind]; [|done..].
  destruct (scan_partial tail (length pre / 8) 0 e c) as [c' Hc'];
    [lia|done|].
  replace (1 + length pre) with (8 * (length pre / 8) + 0 + 1) by lia.
  by rewrite Hc'.
Qed.

Lemma trailing_partial_group_witness :
  NewEntriesFromFile
    (["0001"; "a {{c1::x}}"; "t {{c1::z}}"; "w"; "p"; "d"; "t"; "---"]
       ++ ["0002"; "b"; "<i>"]) None
  = NewEntriesFromFile
      ["0001"; "a {{c1::x}}"; "t {{c1::z}}"; "w"; "p"; "d"; "t"; "---"] None.
Proof.
  apply (trailing_partial_group
           ["0001"; "a {{c1::x}}"; "t {{c1::z}}"; "w"; "p"; "d"; "t"; "---"]
           ["0002"; "b"; "<i>"] None); [reflexivity | simpl; lia |].
  intros j data Hj.
  destruct j as [|[|[|j]]]; simplify_eq/=.
  - split; [lia | by exists 2%Z].
  - by eexists.
  - by eexists.
Defined.

(** The ID line of the unfinished group is checked like any other: when
    it is too short or does not start with an integer, the error is
    returned, with the storage of the stream without the unfinished
    group. *)
Lemma trailing_partial_group_bad_id pre data tail entries :
  length pre mod 8 = 0 →
  len data < 4 ∨ (∃ e, ParseInt (take 4 data) = inr e) →
  NewEntriesFromFile pre None = Return (entries, None) →
  ∃ err, NewEntriesFromFile (pre ++ data :: tail) None
         = Return (entries, Some (ParseError err))
         ∧ line err = length pre + 1.
Proof.
  intros Hpre%length_groups Hdata [c Hscan]%NewEntriesFromFile_accepts.
  unfold NewEntriesFromFile. rewrite scan_app, Hscan.
  cbn [mbind outcome_bind scan].
  rewrite (scan_line_role _ (length pre / 8) 0) by lia.
  unfold case_EntryID. change (digitsOffset + 1) with 4.
  destruct (decide (len data < 4)) as [|Hlen]; cbn [mbind outcome_bind].
  { eexists. split; [done|]. simpl. lia. }
  destruct Hdata as [?|[e He]]; [done|].
  rewrite (slice_Return data 0 4) by lia. cbn [mbind outcome_bind].
  rewrite drop_0, Nat.sub_0_r, He. cbn [mbind outcome_bind].
  eexists. split; [done|]. simpl. lia.
Qed.

(** C7 as stated fails: the stream [["abc"]] ends inside its only group;
    the scan returns an error, the stream without that line none. *)
Lemma trailing_partial_group_counterexample :
  NewEntriesFromFile ["abc"] None =
    Return (Entries_zero, Some (ParseError (mkEntriesParseError 1 "abc"
      (Sprintf
         "line %d: entry ID too short: %q: found %d digits, expected %d digits"
         [ArgInt 1; ArgQuoted "abc"; ArgInt 3; ArgInt 4]))))
  ∧ NewEntriesFromFile [] None = Return (Entries_zero, None).
Proof. split; vm_compute; reflexivity. Qed.

(** ** The write into the storage *)

(** The terminator line writes at index [id-1] whatever the id is: out of
    the 2200 slots the write panics. *)
Lemma case_EntryEnd_out_of_range line entries current :
  ¬ (1 ≤ id current ≤ 2200)%Z →
  case_EntryEnd line EntryDelimiter entries current
  = Panic (IndexOutOfRange (id current - 1) 2200).
Proof.
  intros Hid. unfold case_EntryEnd, Entries_set.
  rewrite decide_False by (by intros []).
  change (Z.of_nat Entries_len) with 2200%Z.
  by rewrite decide_False by lia.
Qed.

(** C6: the ID lines ["0000"], ["9999"] and ["-123"] pass the checks of
    the ID line, and the groups below have no structural error; at their
    terminator the write [entries[current.id-1]] is out of the 2200 slots
    and the scanner panics. *)
Theorem Entries_write_out_of_range :
  NewEntriesFromFile
    ["0000"; "a {{c1::x}}"; "t {{c1::z}}"; "w"; "p"; "d"; "t"; "---"] None
    = Panic (IndexOutOfRange (-1) 2200)
  ∧ NewEntriesFromFile
      ["9999"; "a {{c1::x}}"; "t {{c1::z}}"; "w"; "p"; "d"; "t"; "---"] None
    = Panic (IndexOutOfRange 9998 2200)
  ∧ NewEntriesFromFile
      ["-123"; "a {{c1::x}}"; "t {{c1::z}}"; "w"; "p"; "d"; "t"; "---"] None
    = Panic (IndexOutOfRange (-124) 2200).
Proof. split_and!; vm_compute; reflexivity. Qed.

(** ** A prompt without a cloze deletion *)

(** When the validator returns on a prompt that has no cloze deletion,
    the record is marked dirty, the note is appended to its comments (the
    validator's message, if any, after it) and the scan goes on. *)
Lemma case_EntryUsage_missing_cloze data entries current r :
  FindStringSubmatch data = None → IsValidHTML data = Return r →
  ∃ current',
    case_EntryUsage data entries current = Return (Continue entries current')
    ∧ dirty current' = true
    ∧ usage current' = data
    ∧ comments current' =
        comments current ++ "usage is missing cloze deletion."
          :: match r with Some e => [HTMLError_Error e] | None => [] end.
Proof.
  intros Hcloze Hhtml. unfold case_EntryUsage, check_html.
  rewrite Hcloze, Hhtml. destruct r as [e|]; simpl_entry.
  - eexists; split_and!; [done..|]. by rewrite <-app_assoc.
  - eexists; split_and!; done.
Qed.

(** C8: the prompt [</b>] has no cloze deletion; the scanner marks the
    record and then calls the validator, which panics on the closing tag
    (see [IsValidHTML_close_on_empty_stack_panics]): the scan is aborted
    and no line after the prompt is read. *)
Theorem usage_without_cloze_aborts :
  FindStringSubmatch "</b>" = None
  ∧ NewEntriesFromFile
      ["0001"; "</b>"; "t {{c1::z}}"; "w"; "p"; "d"; "t"; "---"] None
    = Panic (IndexOutOfRange (-1) 0)
  ∧ ∀ rest, NewEntriesFromFile ("0001" :: "</b>" :: rest) None
            = Panic (IndexOutOfRange (-1) 0).
Proof.
  split_and!; [done | vm_compute; reflexivity |].
  intros rest. unfold NewEntriesFromFile. cbn [scan].
  change (scan_line 1 "0001" Entries_zero Entry_zero)
    with (case_EntryID 1 "0001" Entries_zero Entry_zero).
  rewrite (case_EntryID_accepts _ _ _ _ 1%Z) by (simpl; done || lia).
  simpl_entry.
  change (scan_line 2 "</b>" ?e ?c) with (case_EntryUsage "</b>" e c).
  unfold case_EntryUsage, check_html.
  assert (IsValidHTML "</b>" = Panic (IndexOutOfRange (-1) 0)) as ->
    by (vm_compute; reflexivity).
  done.
Qed.

(** * Further properties of the code *)

(** ** What every scan keeps *)

Lemma Entries_inv_zero : Entries_inv Entries_zero.
Proof.
  split; [apply length_replicate|].
  intros i e [-> _]%lookup_replicate. by left.
Qed.

Lemma Entries_set_inv entries i e entries' :
  Entries_inv entries → i = (id e - 1)%Z →
  Entries_set entries i e = Return entries' → Entries_inv entries'.
Proof.
  intros [Hlen Hslots] -> Hset. unfold Entries_set in Hset.
  change (Z.of_nat Entries_len) with 2200%Z in Hset.
  destruct (decide _) as [Hi|] in Hset; [|done]. simplify_eq.
  split; [by rewrite length_insert|].
  intros j e'. destruct (decide (j = Z.to_nat (id e - 1))) as [->|Hj].
  - rewrite list_lookup_insert_eq
      by (rewrite Hlen; unfold Entries_len; lia).
    intros [= <-]. right. lia.
  - rewrite list_lookup_insert_ne by done. apply Hslots.
Qed.

(** A line that stops the scan is an ID line or a terminator line; the
    error is a [ParseError] with the number and the text of the line, and
    the storage is left as it was. *)
Lemma scan_line_Stop n data entries current entries' err :
  scan_line (S n) data entries current = Return (Stop entries' err) →
  entries' = entries
  ∧ (n mod 8 = 0 ∨ n mod 8 = 7)
  ∧ ∃ reason, err = ParseError (mkEntriesParseError (S n) data reason).
Proof.
  unfold scan_line. change (EntryEnd + 1) with 8.
  replace (S n - 1) with n by lia. intros H.
  destruct (n mod 8) as [|[|[|[|[|[|[|[|k]]]]]]]] eqn:Hrole;
    try (by simplify_eq).
  - unfold case_EntryID in H. outcome_cases H; simplify_eq; eauto.
  - unfold case_EntryUsage, check_html in H. outcome_cases H; simplify_eq.
  - unfold case_EntryTranslation, check_html in H.
    outcome_cases H; simplify_eq.
  - unfold case_EntryEnd in H. outcome_cases H; simplify_eq; eauto.
Qed.

Lemma scan_line_inv n data entries current r :
  Entries_inv entries →
  scan_line (S n) data entries current = Return r →
  Entries_inv (step_entries r).
Proof.
  intros Hinv H.
  destruct (decide (n mod 8 = 7)) as [Hrole|Hrole].
  - unfold scan_line in H. change (EntryEnd + 1) with 8 in H.
    replace (S n - 1) with n in H by lia. rewrite Hrole in H.
    unfold case_EntryEnd in H.
    destruct (decide _) in H; [by simplify_eq|].
    destruct (Entries_set _ _ _) as [es|] eqn:Hset; [|done].
    simplify_eq/=. by eapply Entries_set_inv.
  - apply scan_line_entries in H as ->; [done|].
    change (EntryEnd + 1) with 8. unfold EntryEnd.
    by replace (S n - 1) with n by lia.
Qed.

Lemma scan_inv ls n entries current r :
  Entries_inv entries →
  scan ls (S n) entries current = Return r →
  Entries_inv (step_entries r).
Proof.
  revert n entries current. induction ls as [|data ls IH];
    intros n entries current Hinv; cbn [scan].
  - by intros [= <-].
  - destruct (scan_line (S n) data entries current) as [[e c|e err]|p] eqn:E;
      cbn [mbind outcome_bind]; [| |done].
    + apply IH. by apply (scan_line_inv _ _ _ _ _ Hinv E).
    + intros [= <-]. by apply (scan_line_inv _ _ _ _ _ Hinv E).
Qed.

Lemma NewEntriesFromFile_inv ls scanErr entries err :
  NewEntriesFromFile ls scanErr = Return (entries, err) →
  ∃ r, scan ls 1 Entries_zero Entry_zero = Return r ∧ step_entries r = entries.
Proof.
  unfold NewEntriesFromFile.
  destruct (scan ls 1 Entries_zero Entry_zero) as [[e c|e er]|p];
    cbn [mbind outcome_bind]; [| |done].
  - destruct scanErr; intros [= <- <-]; eauto.
  - intros [= <- <-]. eauto.
Qed.

(** X1: the storage every scan returns, with or without an error, has its
    2200 slots, and each slot holds the zero record or a record whose id
    is the number of the slot. *)
Theorem NewEntriesFromFile_slots ls scanErr entries err :
  NewEntriesFromFile ls scanErr = Return (entries, err) →
  length entries = 2200
  ∧ ∀ i e, entries !! i = Some e →
      e = Entry_zero ∨ (id e = Z.of_nat i + 1 ∧ 1 ≤ id e ≤ 2200)%Z.
Proof.
  intros (r & Hscan & <-)%NewEntriesFromFile_inv.
  destruct (scan_inv _ _ _ _ _ Entries_inv_zero Hscan) as [Hlen Hslots].
  split; [done|]. intros i e Hi.
  destruct (Hslots i e Hi) as [?|?]; [by left|right].
  apply lookup_lt_Some in Hi. rewrite Hlen in Hi. unfold Entries_len in Hi.
  lia.
Qed.

Ltac euclid n :=
  pose proof (Nat.div_mod_eq n 8);
  pose proof (Nat.mod_upper_bound n 8 ltac:(lia)).

Lemma scan_Stop ls n entries current entries' err :
  scan ls (S n) entries current = Return (Stop entries' err) →
  ∃ k data reason,
    ls !! k = Some data
    ∧ err = ParseError (mkEntriesParseError (S (n + k)) data reason)
    ∧ ((n + k) mod 8 = 0 ∨ (n + k) mod 8 = 7).
Proof.
  revert n entries current. induction ls as [|data ls IH];
    intros n entries current; cbn [scan]; [done|].
  destruct (scan_line (S n) data entries current) as [[e c|e er]|p] eqn:E;
    cbn [mbind outcome_bind]; [| |done].
  - intros (k & d & reason & Hk & -> & Hrole)%IH.
    exists (S k), d, reason.
    replace (n + S k) with (S n + k) by lia. done.
  - intros [= <- <-].
    apply scan_line_Stop in E as (_ & Hrole & reason & ->).
    exists 0, data, reason. by rewrite Nat.add_0_r.
Qed.

Lemma scan_Stop_line ls n entries current entries' e :
  scan ls (S n) entries current = Return (Stop entries' (ParseError e)) →
  n < line e.
Proof.
  intros (k & d & reason & _ & [= ->] & _)%scan_Stop. cbn [line]. lia.
Qed.

(** X2: a [ParseError] carries the number of a line of the stream,
    counted from 1, and the text of that line; the line is an ID line or
    a terminator line. *)
Theorem ParseError_location ls scanErr entries e :
  NewEntriesFromFile ls scanErr = Return (entries, Some (ParseError e)) →
  1 ≤ line e ≤ length ls
  ∧ ls !! (line e - 1) = Some (data e)
  ∧ ((line e - 1) mod 8 = EntryID ∨ (line e - 1) mod 8 = EntryEnd).
Proof.
  unfold NewEntriesFromFile.
  destruct (scan ls 1 Entries_zero Entry_zero) as [[es c|es er]|p] eqn:E;
    cbn [mbind outcome_bind]; [by destruct scanErr| |done].
  intros [= <- ->].
  apply scan_Stop in E as (k & d & reason & Hk & [= ->] & Hrole).
  cbn [line data Nat.add] in *. replace (S k - 1) with k by lia.
  split_and!; [lia|by apply lookup_lt_Some in Hk|done|done].
Qed.

(** The scan does not look past the line it stops at. *)
Lemma scan_Stop_prefix ls n entries current entries' e rest :
  scan ls (S n) entries current = Return (Stop entries' (ParseError e)) →
  scan (list.take (line e - n) ls ++ rest) (S n) entries current
  = Return (Stop entries' (ParseError e)).
Proof.
  revert n entries current. induction ls as [|data ls IH];
    intros n entries current; cbn [scan]; [done|].
  destruct (scan_line (S n) data entries current) as [[es c|es er]|p] eqn:E;
    cbn [mbind outcome_bind]; [| |done].
  - intros H. pose proof (scan_Stop_line _ _ _ _ _ _ H).
    replace (line e - n) with (S (line e - S n)) by lia.
    cbn [list.take app scan]. rewrite E. cbn [mbind outcome_bind].
    by apply (IH (S n)).
  - intros [= -> ->].
    pose proof E as (_ & _ & reason & [= He])%scan_line_Stop.
    replace (line e - n) with 1 by (rewrite He; cbn [line]; lia).
    cbn [list.take app scan]. by rewrite E.
Qed.

(** X3: the scanner reads no line after the one it reports: the lines
    after the line of a [ParseError], and the final state of the reader,
    do not change the result. *)
Theorem ParseError_no_lookahead ls scanErr entries e rest scanErr' :
  NewEntriesFromFile ls scanErr = Return (entries, Some (ParseError e)) →
  NewEntriesFromFile (list.take (line e) ls ++ rest) scanErr'
  = Return (entries, Some (ParseError e)).
Proof.
  unfold NewEntriesFromFile.
  destruct (scan ls 1 Entries_zero Entry_zero) as [[es c|es er]|p] eqn:E;
    cbn [mbind outcome_bind]; [by destruct scanErr| |done].
  intros [= <- ->].
  apply (scan_Stop_prefix _ _ _ _ _ _ rest) in E.
  rewrite Nat.sub_0_r in E. by rewrite E.
Qed.

(** The storage at an error is the storage before the group of the
    line. *)
Lemma scan_Stop_storage ls n entries current entries' e :
  scan ls (S n) entries current = Return (Stop entries' (ParseError e)) →
  ∃ current',
    scan (list.take (8 * ((line e - 1) / 8) - n) ls) (S n) entries current
    = Return (Continue entries' current').
Proof.
  revert n entries current. induction ls as [|data ls IH];
    intros n entries current; cbn [scan]; [done|].
  destruct (scan_line (S n) data entries current) as [[es c|es er]|p] eqn:E;
    cbn [mbind outcome_bind]; [| |done].
  - intros H. pose proof (scan_Stop_line _ _ _ _ _ _ H) as Hlt.
    apply IH in H as [c' Hc']. clear IH.
    assert (Hnm : n < line e - 1) by lia. clear Hlt.
    revert Hc' Hnm. generalize (line e - 1). intros m Hc' Hnm.
    destruct (decide (8 * (m / 8) ≤ n)) as [Hle|Hgt].
    + replace (8 * (m / 8) - S n) with 0 in Hc' by lia.
      replace (8 * (m / 8) - n) with 0 by lia.
      rewrite take_0 in Hc'. rewrite take_0. cbn [scan] in *. simplify_eq.
      assert (Hrole : (S n - 1) mod (EntryEnd + 1) ≠ EntryEnd).
      { change (EntryEnd + 1) with 8. unfold EntryEnd.
        replace (S n - 1) with n by lia. euclid n. euclid m. lia. }
      apply (scan_line_entries _ _ _ _ _ Hrole) in E.
      cbn [step_entries] in E. subst. eauto.
    + replace (8 * (m / 8) - n) with (S (8 * (m / 8) - S n)) by lia.
      cbn [list.take scan]. rewrite E. cbn [mbind outcome_bind]. eauto.
  - intros [= -> ->].
    pose proof E as (-> & _ & reason & [= He])%scan_line_Stop.
    replace (line e - 1) with n by (rewrite He; cbn [line]; lia).
    replace (8 * (n / 8) - n) with 0 by (euclid n; lia).
    rewrite take_0. cbn [scan]. eauto.
Qed.

(** X4: when a [ParseError] is returned, the storage returned is that of
    the groups before the group of the reported line: no record of the
    group in flight is in it. *)
Theorem ParseError_storage ls scanErr entries e :
  NewEntriesFromFile ls scanErr = Return (entries, Some (ParseError e)) →
  NewEntriesFromFile (list.take (8 * ((line e - 1) / 8)) ls) None
  = Return (entries, None).
Proof.
  unfold NewEntriesFromFile.
  destruct (scan ls 1 Entries_zero Entry_zero) as [[es c|es er]|p] eqn:E;
    cbn [mbind outcome_bind]; [by destruct scanErr| |done].
  intros [= <- ->].
  apply scan_Stop_storage in E as [c' Hc'].
  rewrite Nat.sub_0_r in Hc'. by rewrite Hc'.
Qed.

(** ** The record a group leaves *)

Lemma notes_nil_or (a b : list string) :
  bool_decide (a ++ b ≠ []) = bool_decide (a ≠ []) || bool_decide (b ≠ []).
Proof. by destruct a, b. Qed.

(** The two cloze lines in one step: the flag and the notes they add. *)
Lemma case_EntryUsage_notes data entries current r :
  IsValidHTML data = Return r →
  case_EntryUsage data entries current =
  Return (Continue entries
    (mkEntry (id current)
       (dirty current
        || bool_decide (notes "usage is missing cloze deletion." data ≠ []))
       (comments current ++ notes "usage is missing cloze deletion." data)
       (match FindStringSubmatch data with
        | Some (_ :: m1 :: _) => m1
        | _ => input current
        end)
       data (translation current) (word current) (pronunciation current)
       (definition current) (tags current))).
Proof.
  intros Hr. unfold case_EntryUsage, check_html, notes. rewrite Hr.
  destruct (FindStringSubmatch data) as [l|] eqn:Hf;
    [destruct (FindStringSubmatch_shape _ _ Hf) as (m & g & ->)|];
    destruct r as [e|], current as [? [] ? ? ? ? ? ? ? ?]; simpl_entry;
    rewrite ?app_nil_r, <-?app_assoc; done.
Qed.

Lemma case_EntryTranslation_notes data entries current r :
  IsValidHTML data = Return r →
  case_EntryTranslation data entries current =
  Return (Continue entries
    (mkEntry (id current)
       (dirty current
        || bool_decide
             (notes "translation is missing cloze deletion." data ≠ []))
       (comments current
        ++ notes "translation is missing cloze deletion." data)
       (input current) (usage current) data (word current)
       (pronunciation current) (definition current) (tags current))).
Proof.
  intros Hr. unfold case_EntryTranslation, check_html, notes. rewrite Hr.
  destruct (FindStringSubmatch data) as [l|] eqn:Hf;
    destruct r as [e|], current as [? [] ? ? ? ? ? ? ? ?]; simpl_entry;
    rewrite ?app_nil_r, <-?app_assoc; done.
Qed.

Lemma scan_scannable_group g k entries rest :
  scannable g →
  scan (lines g ++ rest) (8 * k + 1) entries Entry_zero =
  scan rest (8 * (k + 1) + 1) (commit entries (entry_of g)) Entry_zero.
Proof.
  intros (Hlen & (v & Hparse) & Hid & [ru Hu] & [rt Ht]).
  unfold lines. cbn [app scan].
  rewrite (scan_line_role (8 * k + 1) k 0) by lia.
  rewrite (case_EntryID_accepts _ _ _ _ v) by done. simpl_entry.
  rewrite (scan_line_role (S (8 * k + 1)) k 1) by lia.
  rewrite (case_EntryUsage_notes _ _ _ ru) by done. simpl_entry.
  rewrite (scan_line_role (S (S (8 * k + 1))) k 2) by lia.
  rewrite (case_EntryTranslation_notes _ _ _ rt) by done. simpl_entry.
  rewrite (scan_line_role (S (S (S (8 * k + 1)))) k 3) by lia. simpl_entry.
  rewrite (scan_line_role (S (S (S (S (8 * k + 1))))) k 4) by lia.
  simpl_entry.
  rewrite (scan_line_role (S (S (S (S (S (8 * k + 1)))))) k 5) by lia.
  simpl_entry.
  rewrite (scan_line_role (S (S (S (S (S (S (8 * k + 1))))))) k 6) by lia.
  simpl_entry.
  rewrite (scan_line_role (S (S (S (S (S (S (S (8 * k + 1)))))))) k 7) by lia.
  unfold case_EntryEnd. rewrite decide_False by (by intros []).
  simpl_entry. unfold group_id in Hid. rewrite Hparse in Hid.
  rewrite Entries_set_in_range by lia. simpl_entry.
  f_equal; [lia|]. unfold commit, entry_of, group_id, group_notes, cloze,
    marked, inline_comment.
  rewrite Hparse, notes_nil_or, orb_assoc, <-!app_assoc. cbn [id].
  do 2 f_equal.
Qed.

Lemma scan_scannable gs k entries :
  Forall scannable gs →
  scan (gs ≫= lines) (8 * k + 1) entries Entry_zero
  = Return (Continue (foldl commit entries (entry_of <$> gs)) Entry_zero).
Proof.
  intros Hgs. revert k entries.
  induction Hgs as [|g gs Hg _ IH]; intros k entries; [done|].
  rewrite bind_cons, scan_scannable_group by done. apply IH.
Qed.

Lemma NewEntriesFromFile_scannable gs :
  Forall scannable gs →
  NewEntriesFromFile (gs ≫= lines) None
  = Return (foldl commit Entries_zero (entry_of <$> gs), None).
Proof.
  intros Hgs. unfold NewEntriesFromFile.
  change 1 with (8 * 0 + 1). by rewrite scan_scannable.
Qed.

Lemma notes_nil missing data r :
  IsValidHTML data = Return r →
  notes missing data ≠ [] ↔
  FindStringSubmatch data = None ∨ IsValidHTML data ≠ Return None.
Proof.
  intros Hr. unfold notes. rewrite Hr.
  destruct (FindStringSubmatch data), r; cbn; split; intros Hn;
    try done; try (by left); try (by right); by destruct Hn.
Qed.

Lemma app_not_nil (a b : list string) : a ++ b ≠ [] ↔ a ≠ [] ∨ b ≠ [].
Proof.
  destruct a, b; cbn; split; intros Hn; try done; try (by left);
    try (by right); by destruct Hn.
Qed.

(** X5: the record a scanned group leaves in its slot is dirty exactly
    when its ID line has the marker, or its prompt or its translation has
    no cloze deletion or does not pass the validator; its comments are the
    comment of the ID line, then the notes on the prompt, then the notes
    on the translation, each line's missing-cloze note before the
    validator's message. *)
Theorem scanned_record gs k g :
  Forall scannable gs → gs !! k = Some g →
  (∀ k' g', k < k' → gs !! k' = Some g' → group_id g' ≠ group_id g) →
  ∃ entries r,
    NewEntriesFromFile (gs ≫= lines) None = Return (entries, None)
    ∧ entries !! Z.to_nat (group_id g - 1) = Some r
    ∧ id r = group_id g
    ∧ (dirty r = true ↔
         (5 ≤ len (id_line g)
          ∧ at_index (id_line g) 4 = Some EntryDirtyMarker)
         ∨ FindStringSubmatch (usage_line g) = None
         ∨ IsValidHTML (usage_line g) ≠ Return None
         ∨ FindStringSubmatch (translation_line g) = None
         ∨ IsValidHTML (translation_line g) ≠ Return None)
    ∧ comments r =
        inline_comment g
        ++ notes "usage is missing cloze deletion." (usage_line g)
        ++ notes "translation is missing cloze deletion." (translation_line g).
Proof.
  intros Hgs Hk Hlast.
  exists (foldl commit Entries_zero (entry_of <$> gs)), (entry_of g).
  split_and!; [by apply NewEntriesFromFile_scannable| |done| |done].
  - apply (foldl_commit_lookup _ _ k (entry_of g)).
    + apply Forall_fmap. eapply Forall_impl; [done|].
      intros g' (_ & _ & ? & _). rewrite length_Entries_zero.
      by cbn [entry_of id].
    + by rewrite list_lookup_fmap, Hk.
    + intros k' r'. rewrite list_lookup_fmap.
      destruct (gs !! k') as [g'|] eqn:Hk'; [|done].
      intros ? [= <-]. cbn [entry_of id]. by eapply Hlast.
  - rewrite Forall_forall in Hgs.
    destruct (Hgs g) as (_ & _ & _ & [ru Hu] & [rt Ht]).
    { apply list_elem_of_lookup. eauto. }
    cbn [entry_of dirty]. unfold marked, group_notes.
    rewrite orb_true_iff, andb_true_iff, !bool_decide_eq_true, app_not_nil.
    rewrite (notes_nil _ _ _ Hu), (notes_nil _ _ _ Ht). tauto.
Qed.

(** ** [Entries.Write] *)

Section Write.
Context {W : Type} `{CSVWriter W}.

Lemma count_of_cons p e entries :
  count_of p (e :: entries)
  = (if p e then 1 else 0) + count_of p entries.
Proof.
  unfold count_of. rewrite filter_cons.
  destruct (decide (p e = true)) as [->|Hp]; [done|].
  by destruct (p e).
Qed.

(** The loop of [Entries.Write], whatever the writer does: the records
    written are those of a prefix of the writable entries, in their order;
    each counter is exact when the loop ends without an error. *)
Lemma Write_range_trace w entries prefix count ndirty w' count' ndirty' err :
  Write_range w entries prefix count ndirty = (w', count', ndirty', err) →
  ∃ written,
    written `prefix_of` filter (λ e, writable e = true) entries
    ∧ w' = write_all w ((λ e, CSV e prefix) <$> written)
    ∧ ndirty ≤ ndirty' ≤ ndirty + count_of IsDirty entries
    ∧ match err with
      | None =>
          written = filter (λ e, writable e = true) entries
          ∧ count' = count + length written
          ∧ ndirty' = ndirty + count_of IsDirty entries
      | Some _ => count' + 1 = count + length written
      end.
Proof.
  revert w count ndirty. induction entries as [|e entries IH];
    intros w count ndirty; cbn [Write_range].
  - intros [= <- <- <- <-]. exists []. split_and!; try done; try lia.
  - rewrite count_of_cons, filter_cons.
    assert (Hwr : writable e = negb (bool_decide (ID e = 0%Z) || IsDirty e))
      by done.
    destruct (IsDirty e) eqn:Hd.
    + rewrite orb_true_r in *. cbn [negb] in Hwr.
      rewrite decide_False by (by rewrite Hwr).
      intros (written & ? & ? & ? & Herr)%IH. exists written.
      split_and!; [done|done|lia|lia|]. destruct err; [lia|].
      destruct Herr as (? & ? & ?). split_and!; [done|lia|lia].
    + rewrite orb_false_r in *.
      destruct (bool_decide (ID e = 0%Z)) eqn:Hid; cbn [negb] in Hwr.
      * rewrite decide_False by (by rewrite Hwr).
        intros (written & ? & ? & ? & Herr)%IH. exists written.
        split_and!; [done|done|lia|lia|]. destruct err; [lia|].
        destruct Herr as (? & ? & ?). split_and!; [done|lia|lia].
      * rewrite decide_True by done.
        destruct (csv_Write w (CSV e prefix)) as [w1 [werr|]] eqn:Hw.
        -- intros [= <- <- <- <-]. exists [e].
           split_and!; [by apply prefix_cons, prefix_nil| |lia|lia|].
           ++ cbn. by rewrite Hw.
           ++ cbn. lia.
        -- intros (written & ? & ? & ? & Herr)%IH. exists (e :: written).
           split_and!; [by apply prefix_cons| |lia|lia|].
           ++ cbn. by rewrite Hw.
           ++ destruct err; cbn [length]; [lia|].
              destruct Herr as (-> & ? & ?). split_and!; [done|lia|lia].
Qed.

Lemma Entries_Write_calls entries w prefix w' count ndirty err :
  Entries_Write entries w prefix = (w', (count, ndirty, err)) →
  ∃ written,
    written `prefix_of` filter (λ e, writable e = true) entries
    ∧ (w' = write_all w ((λ e, CSV e prefix) <$> written)
       ∨ w' = csv_Flush (write_all w ((λ e, CSV e prefix) <$> written)))
    ∧ count ≤ length written ≤ count + 1
    ∧ ndirty ≤ count_of IsDirty entries
    ∧ (err = None →
       written = filter (λ e, writable e = true) entries
       ∧ w' = csv_Flush (write_all w ((λ e, CSV e prefix) <$> written))
       ∧ count = count_of writable entries
       ∧ ndirty = count_of IsDirty entries).
Proof.
  unfold Entries_Write.
  destruct (Write_range w entries prefix 0 0) as [[[w1 c1] d1] e1] eqn:Hrange.
  apply Write_range_trace in Hrange as (written & Hpre & -> & Hd & Herr).
  destruct e1 as [e1|].
  - intros [= <- <- <- <-]. exists written.
    split_and!; [done|by left|lia|lia|lia|done].
  - destruct Herr as (-> & -> & ->).
    destruct (csv_Error _) as [ferr|];
      intros [= <- <- <- <-]; eexists;
      (split_and!; [done|by right|cbn; lia|cbn; lia|lia|done || by intros _]).
Qed.

Lemma Write_range_no_error (ok : W → Prop) w entries prefix count ndirty :
  (∀ w record,
     ok w → (csv_Write w record).2 = None ∧ ok (csv_Write w record).1) →
  ok w →
  (Write_range w entries prefix count ndirty).2 = None
  ∧ ok (Write_range w entries prefix count ndirty).1.1.1.
Proof.
  intros Hwrite. revert w count ndirty.
  induction entries as [|e entries IH]; intros w count ndirty Hw;
    cbn [Write_range]; [done|].
  destruct (_ || _); [by apply IH|].
  destruct (Hwrite w (CSV e prefix) Hw) as [Hnone Hok].
  destruct (csv_Write w (CSV e prefix)) as [w2 [?|]]; [done|by apply IH].
Qed.

Lemma Entries_Write_ok (ok : W → Prop) entries w prefix :
  (∀ w record,
     ok w → (csv_Write w record).2 = None ∧ ok (csv_Write w record).1) →
  (∀ w, ok w → csv_Error (csv_Flush w) = None) →
  ok w →
  Entries_Write entries w prefix =
  (csv_Flush
     (write_all w ((λ e, CSV e prefix)
                     <$> filter (λ e, writable e = true) entries)),
   (count_of writable entries, count_of IsDirty entries, None)).
Proof.
  intros Hwrite Hflush Hw.
  destruct (Entries_Write entries w prefix) as [w' [[c d] err]] eqn:Hrun.
  pose proof Hrun as (written & _ & _ & _ & _ & Hok)%Entries_Write_calls.
  assert (err = None) as ->.
  { revert Hrun. unfold Entries_Write.
    destruct (Write_range_no_error ok w entries prefix 0 0 Hwrite Hw)
      as [Hno Hok'].
    destruct (Write_range w entries prefix 0 0) as [[[w1 c1] d1] e1].
    cbn in Hno, Hok'. subst e1. rewrite Hflush by done.
    by intros [= _ _ _ <-]. }
  destruct Hok as (-> & -> & -> & ->); done.
Qed.

(** X6: whatever the writer does, [Entries.Write] writes records of
    slots in use that are not dirty only, in the order of the slots and
    each at most once; [count] is the number of records the writer took
    and [dirty] never exceeds the number of dirty records; when no error
    is returned, every such record was written, the writer was flushed
    and both counters are exact. *)
Theorem Entries_Write_trace entries w prefix w' count ndirty err :
  Entries_Write entries w prefix = (w', (count, ndirty, err)) →
  ∃ written,
    written `prefix_of` filter (λ e, writable e = true) entries
    ∧ (w' = write_all w ((λ e, CSV e prefix) <$> written)
       ∨ w' = csv_Flush (write_all w ((λ e, CSV e prefix) <$> written)))
    ∧ count ≤ length written ≤ count + 1
    ∧ ndirty ≤ count_of IsDirty entries
    ∧ (err = None →
       written = filter (λ e, writable e = true) entries
       ∧ w' = csv_Flush (write_all w ((λ e, CSV e prefix) <$> written))
       ∧ count = count_of writable entries
       ∧ ndirty = count_of IsDirty entries).
Proof. apply Entries_Write_calls. Qed.

(** X7: with a writer that takes every record and flushes without an
    error ([ok] is what the writer keeps to do so), [Entries.Write]
    returns no error, [count] is the number of slots in use that are not
    dirty, [dirty] the number of dirty records, and the records written
    are those of the former, in slot order. *)
Theorem Entries_Write_exact (ok : W → Prop) entries w prefix :
  (∀ w record,
     ok w → (csv_Write w record).2 = None ∧ ok (csv_Write w record).1) →
  (∀ w, ok w → csv_Error (csv_Flush w) = None) →
  ok w →
  Entries_Write entries w prefix =
  (csv_Flush
     (write_all w ((λ e, CSV e prefix)
                     <$> filter (λ e, writable e = true) entries)),
   (count_of writable entries, count_of IsDirty entries, None)).
Proof. apply Entries_Write_ok. Qed.

End Write.

(** The writer into memory with room for every record. *)
Lemma rows_writer_ok (w : rows_writer) record :
  room w = None →
  (csv_Write w record).2 = None ∧ room (csv_Write w record).1 = None.
Proof. destruct w as [? ?]. by intros [= ->]. Qed.

Lemma rows_writer_write_all (l0 : list (list string)) records :
  write_all (mkRowsWriter l0 None) records = mkRowsWriter (l0 ++ records) None.
Proof.
  unfold write_all. revert l0.
  induction records as [|r records IH]; intros l0; cbn;
    [by rewrite app_nil_r|].
  by rewrite IH, <-app_assoc.
Qed.

Lemma Entries_Write_rows entries prefix :
  Entries_Write entries (mkRowsWriter [] None) prefix =
  (mkRowsWriter ((λ e, CSV e prefix)
                   <$> filter (λ e, writable e = true) entries) None,
   (count_of writable entries, count_of IsDirty entries, None)).
Proof.
  rewrite (Entries_Write_ok (λ w, room w = None));
    [|intros; by apply rows_writer_ok|done..].
  by rewrite rows_writer_write_all.
Qed.

(** ** The scanner and [Entries.Write] together *)




Lemma count_of_insert p (entries : list Entry) i old new :
  entries !! i = Some old →
  count_of p (<[i:=new]> entries) + (if p old then 1 else 0)
  = count_of p entries + (if p new then 1 else 0).
Proof.
  revert i. induction entries as [|e entries IH]; intros [|i] Hi;
    simplify_eq/=; rewrite !count_of_cons.
  - lia.
  - specialize (IH i Hi). lia.
Qed.

Lemma count_of_commit p rs entries :
  p Entry_zero = false →
  NoDup (id <$> rs) →
  Forall (λ r, 1 ≤ id r ≤ Z.of_nat (length entries))%Z rs →
  (∀ r, r ∈ rs → entries !! Z.to_nat (id r - 1) = Some Entry_zero) →
  count_of p (foldl commit entries rs) = count_of p entries + count_of p rs.
Proof.
  intros Hzero. revert entries.
  induction rs as [|r rs IH]; intros entries Hnodup Hrange Hfree;
    cbn [foldl].
  - unfold count_of at 3. cbn. lia.
  - apply NoDup_cons in Hnodup as [Hr Hnodup].
    apply Forall_cons in Hrange as [Hr' Hrange].
    rewrite IH; [| done | by rewrite length_commit |].
    + pose proof (count_of_insert p entries (Z.to_nat (id r - 1))
                    Entry_zero r) as Hins.
      rewrite Hzero in Hins. unfold commit. rewrite count_of_cons.
      specialize (Hins (Hfree r ltac:(by left))). lia.
    + intros r' Hr''. unfold commit.
      rewrite list_lookup_insert_ne; [apply Hfree; by right|].
      intros Heq. apply Hr. apply list_elem_of_fmap. exists r'.
      split; [|done].
      rewrite Forall_forall in Hrange. specialize (Hrange r' Hr''). lia.
Qed.

(** X9: for a stream of scanned groups with different ids, the scanner
    and [Entries.Write] together count every group once: [count] is the
    number of groups whose record is not dirty, [dirty] the number of
    groups whose record is dirty. *)
Theorem scan_then_Write_counts gs prefix :
  Forall scannable gs → NoDup (group_id <$> gs) →
  ∃ entries w count ndirty,
    NewEntriesFromFile (gs ≫= lines) None = Return (entries, None)
    ∧ Entries_Write entries (mkRowsWriter [] None) prefix
      = (w, (count, ndirty, None))
    ∧ count = count_of (λ e, negb (IsDirty e)) (entry_of <$> gs)
    ∧ ndirty = count_of IsDirty (entry_of <$> gs)
    ∧ count + ndirty = length gs
    ∧ length (rows w) = count.
Proof.
  intros Hgs Hnodup. eexists _, _, _, _.
  split; [by apply NewEntriesFromFile_scannable|].
  split; [apply Entries_Write_rows|].
  assert (Hids : id <$> (entry_of <$> gs) = group_id <$> gs).
  { by rewrite <-list_fmap_compose. }
  assert (Hrange : Forall (λ r, 1 ≤ id r ≤ Z.of_nat (length Entries_zero))%Z
                     (entry_of <$> gs)).
  { apply Forall_fmap. eapply Forall_impl; [done|].
    intros g (_ & _ & ? & _). rewrite length_Entries_zero.
    by cbn [entry_of id]. }
  assert (Hfree : ∀ r, r ∈ entry_of <$> gs →
            Entries_zero !! Z.to_nat (id r - 1) = Some Entry_zero).
  { intros r Hr. rewrite Forall_forall in Hrange.
    specialize (Hrange r Hr). rewrite length_Entries_zero in Hrange.
    apply lookup_replicate_2. unfold Entries_len. lia. }
  assert (Hzero : ∀ p, p Entry_zero = false → count_of p Entries_zero = 0).
  { intros p Hp. unfold count_of, Entries_zero.
    generalize Entries_len. intros n. induction n as [|n IH]; [done|].
    cbn [replicate]. rewrite filter_cons, decide_False; [done|].
    by rewrite Hp. }
  rewrite !count_of_commit, !Hzero by (done || by rewrite Hids).
  assert (Hw : count_of writable (entry_of <$> gs)
               = count_of (λ e, negb (IsDirty e)) (entry_of <$> gs)).
  { clear -Hrange. induction Hrange as [|r rs Hr _ IH]; [done|].
    rewrite !count_of_cons, IH. unfold writable, ID.
    rewrite bool_decide_eq_false_2 by lia. done. }
  split_and!; [by rewrite Hw|done| |].
  - rewrite Hw. clear. rewrite <-(length_fmap entry_of gs).
    induction (entry_of <$> gs) as [|r rs IH]; [done|].
    rewrite !count_of_cons. cbn [length]. destruct (IsDirty r); cbn; lia.
  - cbn [rows]. rewrite length_fmap.
    fold (count_of writable (foldl commit Entries_zero (entry_of <$> gs))).
    by rewrite !count_of_commit, !Hzero by (done || by rewrite Hids).
Qed.

(** ** The columns of a record *)

Lemma Split_not_nil s sep : Split s sep ≠ [].
Proof.
  destruct s as [|c s]; cbn [Split]; [done|].
  case_decide; [done|]. by destruct (Split s sep).
Qed.

Lemma Join_Split s sep : Join (Split s sep) (String sep EmptyString) = s.
Proof.
  induction s as [|c s IH]; cbn [Split]; [done|].
  pose proof (Split_not_nil s sep) as Hne.
  case_decide as Hc.
  - subst c. cbn [Join]. destruct (Split s sep) as [|f fs] eqn:E; [done|].
    by rewrite IH.
  - destruct (Split s sep) as [|f fs] eqn:E; [done|].
    cbn [Join] in *. destruct fs as [|f' fs]; [by rewrite IH|].
    by rewrite <-IH.
Qed.

(** X10: the labels line read by the scanner and the last column written
    by [CSV] are the same text: splitting at the commas and joining with
    commas loses nothing, empty labels included. *)
Theorem labels_round_trip current data prefix :
  last (CSV (set_tags current (Split data ",")) prefix) = Some data.
Proof.
  unfold CSV, Tags, set_tags. cbn [last tags]. f_equal. apply Join_Split.
Qed.

Lemma is_digit_cases c :
  is_digit c = true →
  c ∈ ["0"; "1"; "2"; "3"; "4"; "5"; "6"; "7"; "8"; "9"]%char.
Proof.
  destruct c as [[] [] [] [] [] [] [] []]; intros H; try discriminate H;
    clear H; repeat (first [by left | right]).
Qed.

Lemma four_digits_fmt :
  let ds := ["0"; "1"; "2"; "3"; "4"; "5"; "6"; "7"; "8"; "9"]%char in
  forallb (λ c1, forallb (λ c2, forallb (λ c3, forallb (λ c4,
    let s := String c1 (String c2 (String c3 (String c4 EmptyString))) in
    match ParseInt s with
    | inl v => bool_decide (fmt_04d v = s ∧ 0 ≤ v ≤ 9999)%Z
    | inr _ => false
    end) ds) ds) ds) ds = true.
Proof. vm_compute. reflexivity. Qed.

Lemma ParseInt_four_digits s :
  len s = 4 → all_bytes is_digit s = true →
  ∃ v, ParseInt s = inl v ∧ fmt_04d v = s ∧ (0 ≤ v ≤ 9999)%Z.
Proof.
  destruct s as [|c1 [|c2 [|c3 [|c4 [|c5 s]]]]]; try done. intros _.
  cbn [all_bytes]. rewrite !andb_true_iff.
  intros (H1%is_digit_cases & H2%is_digit_cases & H3%is_digit_cases
          & H4%is_digit_cases & _).
  pose proof four_digits_fmt as Hall. cbv zeta in Hall.
  rewrite forallb_forall in Hall.
  apply list_elem_of_In in H1, H2, H3, H4.
  specialize (Hall c1 H1). rewrite forallb_forall in Hall.
  specialize (Hall c2 H2). rewrite forallb_forall in Hall.
  specialize (Hall c3 H3). rewrite forallb_forall in Hall.
  specialize (Hall c4 H4).
  destruct (ParseInt _) as [v|] eqn:E; [|done].
  apply bool_decide_eq_true in Hall as (? & ? & ?). by exists v.
Qed.

(** X11: an ID line that starts with four digits comes back in the first
    column of the record and in its sound column: the id read from the
    digits is written with [%04d] as the same four digits. *)
Theorem id_round_trip line data entries current prefix :
  (line - 1) mod (EntryEnd + 1) = EntryID →
  4 ≤ len data → all_bytes is_digit (take 4 data) = true →
  ∃ current',
    scan_line line data entries current = Return (Continue entries current')
    ∧ (0 ≤ id current' ≤ 9999)%Z
    ∧ CSV current' prefix !! 0 = Some (prefix +:+ "-" +:+ take 4 data)
    ∧ Audio current' prefix
      = "[sound:" +:+ prefix +:+ "-" +:+ take 4 data +:+ ".mp3]".
Proof.
  intros Hrole Hlen Hdigits.
  destruct (ParseInt_four_digits (take 4 data)) as (v & Hv & Hfmt & Hrange);
    [by apply len_take|done|].
  rewrite scan_line_EntryID, (case_EntryID_accepts _ _ _ _ v) by done.
  eexists. split; [done|]. unfold CSV, Audio, ID. cbn [id lookup list_lookup].
  rewrite Hfmt. split_and!; [lia|lia|done|done].
Qed.

(** ** The range of a parsed id *)

Lemma digits_bound s acc v :
  (0 ≤ acc)%Z → digits s acc = Some v →
  (acc * 10 ^ Z.of_nat (len s) ≤ v < (acc + 1) * 10 ^ Z.of_nat (len s))%Z.
Proof.
  revert acc. induction s as [|c s IH]; intros acc Hacc; cbn [digits len].
  - intros [= <-]. cbn. lia.
  - destruct (is_digit c) eqn:Hc; [|done].
    unfold is_digit in Hc. apply andb_true_iff in Hc as [H1%N.leb_le H2%N.leb_le].
    intros Hv%IH; [|lia].
    change (len (String c s)) with (S (len s)) in *.
    rewrite Nat2Z.inj_succ, Z.pow_succ_r by lia.
    unfold len in *. nia.
Qed.

Lemma digits_short body un :
  len body ≤ 4 → digits body 0 = Some un →
  (0 ≤ un < 10 ^ Z.of_nat (len body) ∧ 10 ^ Z.of_nat (len body) ≤ 10000)%Z.
Proof.
  intros Hlen E%digits_bound; [|lia]. split; [lia|].
  change 10000%Z with (10 ^ 4)%Z. apply Z.pow_le_mono_r; lia.
Qed.

Lemma ParseInt_short s :
  len s ≤ 4 →
  match ParseInt s with
  | inl v => (-999 ≤ v ≤ 9999)%Z
  | inr e => e = mkNumError "ParseInt" s ErrSyntax
  end.
Proof.
  intros Hlen. unfold ParseInt. destruct s as [|c s]; [done|].
  case_decide as Hsign.
  - destruct s as [|c' s']; [done|].
    destruct (digits (String c' s') 0) as [un|] eqn:E; [|done].
    assert (0 ≤ un < 1000)%Z.
    { apply digits_bound in E; [|lia].
      assert (10 ^ Z.of_nat (len (String c' s')) ≤ 1000)%Z; [|lia].
      change 1000%Z with (10 ^ 3)%Z.
      apply Z.pow_le_mono_r; [lia|]. clear E. unfold len in *.
      cbn [String.length] in *. lia. }
    rewrite (bool_decide_eq_false_2 (cutoff ≤ un)%Z),
      (bool_decide_eq_false_2 (cutoff < un)%Z) by (unfold cutoff; lia).
    rewrite !andb_false_r. destruct (bool_decide (c = "-"%char)); lia.
  - rewrite bool_decide_eq_false_2 by tauto.
    destruct (digits (String c s) 0) as [un|] eqn:E; [|done].
    apply digits_short in E; [|done].
    cbn [negb andb].
    rewrite (bool_decide_eq_false_2 (cutoff ≤ un)%Z) by (unfold cutoff; lia).
    lia.
Qed.

(** X12: an ID line of four bytes or more is either refused with the
    syntax error of [strconv.ParseInt] on its first four bytes (never a
    range error), the storage left as it is, or taken with an id between
    -999 and 9999. *)
Theorem ID_line_range line data entries current :
  (line - 1) mod (EntryEnd + 1) = EntryID → 4 ≤ len data →
  (∃ current',
     scan_line line data entries current = Return (Continue entries current')
     ∧ (-999 ≤ id current' ≤ 9999)%Z)
  ∨ scan_line line data entries current =
      Return (Stop entries (ParseError (mkEntriesParseError line data
        (Sprintf "line %d: failed to parse entry ID: %q: %v"
           [ArgInt (Z.of_nat line); ArgQuoted data;
            ArgNumError (mkNumError "ParseInt" (take 4 data) ErrSyntax)])))).
Proof.
  intros Hrole Hlen. rewrite scan_line_EntryID by done.
  pose proof (ParseInt_short (take 4 data)) as Hparse.
  rewrite len_take in Hparse by done. specialize (Hparse ltac:(lia)).
  destruct (ParseInt (take 4 data)) as [v|e] eqn:E.
  - left. rewrite (case_EntryID_accepts _ _ _ _ v) by done. eauto.
  - right. subst e. unfold case_EntryID. change (digitsOffset + 1) with 4.
    rewrite decide_False by lia. rewrite (slice_Return data 0 4) by lia.
    cbn [mbind outcome_bind]. by rewrite drop_0, Nat.sub_0_r, E.
Qed.

(** ** The scanner with and without the validator *)

Lemma Minimal_scan_line_agree n data entries current :
  (n mod 8 = 1 ∨ n mod 8 = 2 → IsValidHTML data = Return None) →
  Minimal.scan_line (S n) data entries current
  = scan_line (S n) data entries current.
Proof.
  intros Hvalid. unfold Minimal.scan_line, scan_line.
  change (EntryEnd + 1) with 8. replace (S n - 1) with n by lia.
  destruct (n mod 8) as [|[|[|k]]]; try done.
  - unfold Minimal.case_EntryUsage, case_EntryUsage, check_html.
    by rewrite Hvalid by (by left).
  - unfold Minimal.case_EntryTranslation, case_EntryTranslation, check_html.
    by rewrite Hvalid by (by right).
Qed.

Lemma Minimal_scan_agree ls n entries current :
  (∀ i data, ls !! i = Some data →
     (n + i) mod 8 = 1 ∨ (n + i) mod 8 = 2 → IsValidHTML data = Return None) →
  Minimal.scan ls (S n) entries current = scan ls (S n) entries current.
Proof.
  revert n entries current. induction ls as [|data ls IH];
    intros n entries current Hvalid; [done|].
  cbn [Minimal.scan scan]. rewrite Minimal_scan_line_agree.
  - destruct (scan_line (S n) data entries current) as [[e c|e err]|p];
      cbn [mbind outcome_bind]; [|done..].
    apply IH. intros i d Hi. replace (S n + i) with (n + S i) by lia.
    by apply Hvalid.
  - intros Hrole. apply (Hvalid 0); [done|by rewrite Nat.add_0_r].
Qed.

(** X13: on a stream whose prompt and translation lines all pass the
    validator, the scanner of the driver without the validator returns
    what the scanner with the validator returns. *)
Theorem Minimal_agrees ls scanErr :
  (∀ i data, ls !! i = Some data →
     i mod (EntryEnd + 1) = EntryUsage ∨ i mod (EntryEnd + 1) = EntryTranslation →
     IsValidHTML data = Return None) →
  Minimal.NewEntriesFromFile ls scanErr = NewEntriesFromFile ls scanErr.
Proof.
  intros Hvalid. unfold Minimal.NewEntriesFromFile, NewEntriesFromFile.
  by rewrite Minimal_scan_agree.
Qed.

Lemma less_flagged_refl e : less_flagged e e.
Proof. by repeat split. Qed.

Lemma Minimal_scan_line_sim n data em cm ef cf rf :
  Forall2 less_flagged em ef → less_flagged cm cf →
  scan_line (S n) data ef cf = Return rf →
  ∃ rm, Minimal.scan_line (S n) data em cm = Return rm
        ∧ less_flagged_step rm rf.
Proof.
  intros Hes Hc. pose proof Hc as (Hid & Hin & Hu & Ht & Hw & Hp & Hd & Htg & Hdirty & Hcomments).
  unfold Minimal.scan_line, scan_line.
  change (EntryEnd + 1) with 8. replace (S n - 1) with n by lia.
  destruct (n mod 8) as [|[|[|[|[|[|[|[|k]]]]]]]].
  - (* the ID line *)
    unfold case_EntryID.
    destruct (decide _); [intros [= <-]; eexists; split; [done|by split]|].
    destruct (slice data 0 (digitsOffset + 1)) as [prefix|]; [|done].
    cbn [mbind outcome_bind].
    destruct (ParseInt prefix) as [v|e];
      [|intros [= <-]; eexists; split; [done|by split]].
    destruct (decide _).
    + destruct (slice data commentOffset (len data)); [|done].
      cbn [mbind outcome_bind]. intros [= <-]. eexists; split; [done|].
      split; [done|]. by repeat split.
    + intros [= <-]. eexists; split; [done|]. split; [done|].
      by repeat split.
  - (* the prompt *)
    unfold case_EntryUsage, Minimal.case_EntryUsage, check_html.
    destruct (IsValidHTML data) as [[e|]|]; [| |done];
      cbn [mbind outcome_bind]; intros [= <-]; eexists; (split; [done|]);
      (split; [done|]);
      destruct (FindStringSubmatch data) as [[|? [|? ?]]|];
      repeat split; simpl_entry; try done;
      rewrite <-?app_assoc;
      try (apply sublist_app; [done|]);
      try (by apply sublist_inserts_r);
      try (by apply sublist_skip, sublist_nil_l).
  - (* the translation *)
    unfold case_EntryTranslation, Minimal.case_EntryTranslation, check_html.
    destruct (IsValidHTML data) as [[e|]|]; [| |done];
      cbn [mbind outcome_bind]; intros [= <-]; eexists; (split; [done|]);
      (split; [done|]);
      destruct (FindStringSubmatch data);
      repeat split; simpl_entry; try done;
      rewrite <-?app_assoc;
      try (apply sublist_app; [done|]);
      try (by apply sublist_inserts_r);
      try (by apply sublist_skip, sublist_nil_l).
  - intros [= <-]. eexists; split; [done|]. by repeat split.
  - intros [= <-]. eexists; split; [done|]. by repeat split.
  - intros [= <-]. eexists; split; [done|]. by repeat split.
  - intros [= <-]. eexists; split; [done|]. by repeat split.
  - (* the terminator *)
    unfold case_EntryEnd.
    destruct (decide _); [intros [= <-]; eexists; split; [done|by split]|].
    unfold Entries_set. rewrite Hid.
    apply Forall2_length in Hes as Hlen.
    destruct (decide _); [|done]. cbn [mbind outcome_bind].
    intros [= <-]. eexists; split; [done|]. split.
    + by apply Forall2_insert.
    + apply less_flagged_refl.
  - intros [= <-]. eexists; split; [done|]. by split.
Qed.

Lemma Minimal_scan_sim ls n em cm ef cf rf :
  Forall2 less_flagged em ef → less_flagged cm cf →
  scan ls (S n) ef cf = Return rf →
  ∃ rm, Minimal.scan ls (S n) em cm = Return rm ∧ less_flagged_step rm rf.
Proof.
  revert n em cm ef cf. induction ls as [|data ls IH];
    intros n em cm ef cf Hes Hc; cbn [scan Minimal.scan].
  - intros [= <-]. eexists. split; [done|]. by split.
  - destruct (scan_line (S n) data ef cf) as [rf1|] eqn:E; [|done].
    destruct (Minimal_scan_line_sim _ _ _ _ _ _ _ Hes Hc E)
      as (rm1 & -> & Hstep).
    cbn [mbind outcome_bind].
    destruct rm1 as [em1 cm1|em1 errm], rf1 as [ef1 cf1|ef1 errf];
      try done; destruct Hstep as [Hes1 Hc1].
    + by apply IH.
    + intros [= <-]. eexists. split; [done|]. by split.
Qed.

(** X14: whenever the scanner with the validator returns, the scanner of
    the driver without it returns the same error, or none, and a storage
    with the same ids and texts slot by slot; a record is dirty there only
    if it is dirty with the validator, and its comments are among the
    comments with the validator, in their order. *)
Theorem Minimal_less_strict ls scanErr entries err :
  NewEntriesFromFile ls scanErr = Return (entries, err) →
  ∃ entries',
    Minimal.NewEntriesFromFile ls scanErr = Return (entries', err)
    ∧ Forall2 less_flagged entries' entries.
Proof.
  unfold NewEntriesFromFile, Minimal.NewEntriesFromFile.
  destruct (scan ls 1 Entries_zero Entry_zero) as [rf|] eqn:E; [|done].
  destruct (Minimal_scan_sim ls 0 Entries_zero Entry_zero _ _ _
              ltac:(apply Forall2_same_length_lookup_2; [done|];
                    intros i x y ? ?; simplify_eq;
                    apply less_flagged_refl)
              (less_flagged_refl _) E)
    as (rm & -> & Hstep).
  cbn [mbind outcome_bind].
  destruct rm as [em cm|em errm], rf as [ef cf|ef errf]; try done;
    destruct Hstep as [Hes Hc].
  - destruct scanErr; intros [= <- <-]; eauto.
  - intros [= <- <-]. subst. eauto.
Qed.

(** ** What the validator keeps *)

Lemma IndexByte_take_first s c i :
  IndexByte s c = Some i → IndexByte (take i s) c = None.
Proof.
  revert i. induction s as [|c' s IH]; intros i; cbn [IndexByte]; [done|].
  case_decide; [by intros [= <-]|].
  destruct (IndexByte s c) as [j|] eqn:E; [|done]. intros [= <-].
  cbn [take IndexByte]. rewrite decide_False by done. by rewrite (IH j).
Qed.

(** One turn of the loop, step by step: the slices are within bounds, so
    that the only panic is the one of the empty stack; a name pushed is an
    [open_name]; a mismatch is reported against the top of the stack. *)
Lemma IsValidHTML_body_cases s offset tags :
  offset < len s →
  match IsValidHTML_body s offset tags with
  | Panic p => p = IndexOutOfRange (-1) 0 ∧ tags = []
  | Return Break => True
  | Return (Fail e) =>
      match e with
      | ErrMismatch found expected =>
          found ≠ expected ∧ last tags = Some found
      | ErrNotAllClosed _ => False
      | _ => True
      end
  | Return (Next offset' tags') =>
      offset' ≤ len s
      ∧ (tags' = removelast tags ∧ tags ≠ []
         ∨ ∃ t, tags' = tags ++ [t] ∧ open_name t)
  end.
Proof.
  intros Hoffset. unfold IsValidHTML_body.
  rewrite slice_from by lia. cbn [mbind outcome_bind].
  destruct (IndexByte (drop offset s) "<") as [start0|] eqn:Hlt; [|done].
  assert (Hstart : start0 + offset < len s).
  { apply IndexByte_lt in Hlt. rewrite len_drop in Hlt. lia. }
  assert (Hopen : at_index s (start0 + offset) = Some "<"%char).
  { apply IndexByte_Some in Hlt. rewrite at_index_drop in Hlt.
    by rewrite Nat.add_comm. }
  set (start := start0 + offset) in *.
  assert (Hgap : ∃ gap, (if decide (offset < start) then slice s offset start
                         else Return "") = Return gap).
  { case_decide; [|by eexists]. rewrite slice_Return by lia. by eexists. }
  destruct Hgap as [gap ->]. cbn [mbind outcome_bind].
  destruct (decide (offset < start ∧ IndexByte gap ">" ≠ None)); [done|].
  rewrite slice_from by lia. cbn [mbind outcome_bind].
  destruct (IndexByte (drop start s) ">") as [end0|] eqn:Hgt; [|done].
  assert (Hend : end0 + start < len s).
  { apply IndexByte_lt in Hgt. rewrite len_drop in Hgt. lia. }
  assert (end0 ≠ 0).
  { intros ->. apply IndexByte_Some in Hgt.
    rewrite at_index_drop, Nat.add_0_r in Hgt. congruence. }
  assert (Hoff : (if decide (offset < start) then start else offset) = start).
  { case_decide; [done|]. unfold start in *. lia. }
  rewrite Hoff. rewrite slice_Return by lia. cbn [mbind outcome_bind].
  set (tag0 := TrimSpace _).
  assert (Htag : ∃ tag, match IndexByte tag0 " " with
                        | Some idx => slice tag0 0 idx
                        | None => Return tag0
                        end = Return tag
                        ∧ IndexByte tag " " = None).
  { destruct (IndexByte tag0 " ") as [idx|] eqn:Hidx; [|by eexists].
    rewrite slice_Return by (apply IndexByte_lt in Hidx; lia).
    eexists. split; [done|]. rewrite drop_0, Nat.sub_0_r.
    by apply IndexByte_take_first. }
  destruct Htag as (tag & -> & Hspace). cbn [mbind outcome_bind].
  destruct tag as [|c expected]; [done|].
  destruct (decide (c = "/"%char)) as [Hc|Hc].
  - unfold top. destruct (last tags) as [l|] eqn:Hlast;
      cbn [mbind outcome_bind].
    + destruct (decide (l ≠ expected)); [done|]. split; [lia|]. left.
      split; [done|]. by intros ->.
    + split; [done|]. by apply last_None.
  - split; [lia|]. right. eexists. split; [done|].
    split_and!; [done| |done]. cbn. congruence.
Qed.


Lemma Forall_removelast {A} (P : A → Prop) (l : list A) :
  Forall P l → Forall P (removelast l).
Proof.
  induction 1 as [|x l Hx Hl IH]; [constructor|].
  cbn [removelast]. destruct l; [constructor|by constructor].
Qed.


Lemma IsValidHTML_loop_result fuel s offset tags r :
  Forall open_name tags →
  IsValidHTML_loop fuel s offset tags = Some r → IsValidHTML_result_ok r.
Proof.
  assert (Hend : ∀ tags, Forall open_name tags →
            IsValidHTML_result_ok (Return (IsValidHTML_end tags))).
  { intros ts Hts. unfold IsValidHTML_end. case_decide as Hlen; [|done].
    split; [|done]. by intros ->. }
  revert offset tags. induction fuel as [|fuel IH]; intros offset tags Htags;
    cbn [IsValidHTML_loop].
  - case_decide; [done|]. intros [= <-]. by apply Hend.
  - case_decide as Hoffset; [|intros [= <-]; by apply Hend].
    pose proof (IsValidHTML_body_cases s offset tags Hoffset) as Hbody.
    destruct (IsValidHTML_body s offset tags) as [[|e|offset' tags']|p].
    + intros [= <-]. by apply Hend.
    + intros [= <-]. destruct e as [| | |found expected|]; try done.
      destruct Hbody as [Hne (l' & ->)%last_Some]. split; [|done].
      apply Forall_app in Htags as [_ Hfound]. by inversion Hfound.
    + apply IH. destruct Hbody as [_ [[-> _]|(t & -> & Ht)]].
      * by apply Forall_removelast.
      * apply Forall_app. split; [done|]. by constructor.
    + intros [= <-]. by destruct Hbody.
Qed.

(** X15: the only panic of [IsValidHTML] is the index [-1] of the empty
    stack: no slice of the text and no other index is ever out of
    range. *)
Theorem IsValidHTML_only_panic s p :
  IsValidHTML s = Panic p → p = IndexOutOfRange (-1) 0.
Proof.
  intros H.
  apply (IsValidHTML_loop_result (len s) s 0 [] (Panic p)); [constructor|].
  by rewrite IsValidHTML_loop_eq, H.
Qed.

(** X16: the names an error of [IsValidHTML] reports come from opening
    tags: the list of "not all tags closed" is not empty and each of its
    names, like the name found in a mismatch, is not empty, does not start
    with [/] and has no space; the two names of a mismatch differ. *)
Theorem IsValidHTML_error_names s e :
  IsValidHTML s = Return (Some e) →
  match e with
  | ErrNotAllClosed ts => ts ≠ [] ∧ Forall open_name ts
  | ErrMismatch found expected => open_name found ∧ found ≠ expected
  | _ => True
  end.
Proof.
  intros H.
  apply (IsValidHTML_loop_result (len s) s 0 [] (Return (Some e)));
    [constructor|].
  by rewrite IsValidHTML_loop_eq, H.
Qed.

(** ** The validator, tag by tag *)

Lemma append_nil (y : string) : "" +:+ y = y.
Proof. done. Qed.

Lemma append_cons c (x y : string) : String c x +:+ y = String c (x +:+ y).
Proof. done. Qed.

Lemma append_assoc (x y z : string) : (x +:+ y) +:+ z = x +:+ y +:+ z.
Proof.
  induction x as [|c x IH]; [done|]. by rewrite !append_cons, IH.
Qed.

Lemma drop_app_len p q : drop (len p) (p +:+ q) = q.
Proof. induction p as [|c p IH]; [done|apply IH]. Qed.

Lemma take_app_len p q : take (len p) (p +:+ q) = p.
Proof.
  induction p as [|c p IH]; [done|].
  rewrite append_cons. cbn [len String.length take]. by f_equal.
Qed.

Lemma IndexByte_app_skip p q c :
  IndexByte p c = None →
  IndexByte (p +:+ q) c = (λ i, len p + i) <$> IndexByte q c.
Proof.
  induction p as [|c' p IH]; cbn [IndexByte].
  - intros _. rewrite append_nil. by destruct (IndexByte q c).
  - case_decide as Hc; [done|].
    destruct (IndexByte p c) eqn:E; [done|]. intros _.
    rewrite append_cons.
    cbn [IndexByte]. rewrite decide_False by done. rewrite IH by done.
    by destruct (IndexByte q c).
Qed.

Lemma all_bytes_IndexByte p s c :
  all_bytes p s = true → p c = false → IndexByte s c = None.
Proof.
  intros Hs Hc. induction s as [|c' s IH]; [done|].
  cbn [all_bytes IndexByte] in *. apply andb_true_iff in Hs as [Hc' Hs].
  rewrite decide_False by congruence. by rewrite IH.
Qed.


Lemma TrimLeftSpace_name c s :
  is_name_byte c = true → TrimLeftSpace (String c s) = String c s.
Proof.
  destruct c as [[] [] [] [] [] [] [] []]; intros H; try discriminate H;
    clear H; cbn [TrimLeftSpace]; (destruct s as [|c2 [|c3 s]]; reflexivity).
Qed.

Lemma TrimLeftSpaceRev_name c s :
  is_name_byte c = true → TrimLeftSpaceRev (String c s) = String c s.
Proof.
  destruct c as [[] [] [] [] [] [] [] []]; intros H; try discriminate H;
    clear H; cbn [TrimLeftSpaceRev].
  all: destruct s as [|c2 [|c3 s]]; try reflexivity.
  all: unfold asciiSpace, space2, space3, code; cbn [N_of_ascii N_of_digits];
    rewrite ?andb_false_r; try reflexivity.
Qed.


Lemma rev_append_rev_append s acc acc' :
  rev_append (rev_append s acc) acc' = rev_append acc (s +:+ acc').
Proof.
  revert acc acc'. induction s as [|c s IH]; intros acc acc'; [done|].
  cbn [rev_append]. by rewrite IH.
Qed.

Lemma rev_rev s : rev (rev s) = s.
Proof.
  unfold rev. rewrite rev_append_rev_append. cbn [rev_append].
  induction s as [|c s IH]; [done|]. by rewrite append_cons, IH.
Qed.

Lemma all_bytes_rev_append p s acc :
  all_bytes p (rev_append s acc) = all_bytes p s && all_bytes p acc.
Proof.
  revert acc. induction s as [|c s IH]; intros acc; [done|].
  cbn [rev_append all_bytes]. rewrite IH. cbn [all_bytes].
  by destruct (p c), (all_bytes p s).
Qed.

Lemma TrimSpace_name s : all_bytes is_name_byte s = true → TrimSpace s = s.
Proof.
  intros Hs. unfold TrimSpace, TrimRightSpace.
  assert (TrimLeftSpace s = s) as ->.
  { destruct s as [|c s]; [done|]. apply TrimLeftSpace_name.
    cbn [all_bytes] in Hs. by apply andb_true_iff in Hs as [? _]. }
  assert (TrimLeftSpaceRev (rev s) = rev s) as ->; [|apply rev_rev].
  assert (Hrev : all_bytes is_name_byte (rev s) = true).
  { unfold rev. by rewrite all_bytes_rev_append, Hs. }
  destruct (rev s) as [|c r]; [done|]. apply TrimLeftSpaceRev_name.
  cbn [all_bytes] in Hrev. by apply andb_true_iff in Hrev as [? _].
Qed.

(** One turn of the loop at a tag: after the text [pre] already read
    comes text [gap] without brackets, then [<], the text [inner] of the
    tag, and [>]. *)
Lemma IsValidHTML_body_at_tag pre gap inner post tags :
  IndexByte gap "<" = None → IndexByte gap ">" = None →
  IndexByte inner ">" = None →
  IsValidHTML_body (pre +:+ gap +:+ String "<" (inner +:+ String ">" post))
    (len pre) tags =
  (tag ← match IndexByte (TrimSpace inner) " " with
         | Some idx => slice (TrimSpace inner) 0 idx
         | None => Return (TrimSpace inner)
         end;
   match tag with
   | EmptyString => Return (Fail ErrEmptyTag)
   | String c expected =>
       if decide (c = "/"%char) then
         found ← top tags;
         if decide (found ≠ expected)
         then Return (Fail (ErrMismatch found expected))
         else Return (Next (len pre + len gap + len inner + 2)
                        (removelast tags))
       else Return (Next (len pre + len gap + len inner + 2) (tags ++ [tag]))
   end).
Proof.
  intros Hgap_lt Hgap_gt Hinner.
  set (s := pre +:+ gap +:+ String "<" (inner +:+ String ">" post)).
  assert (Hlen : len s = len pre + len gap + S (len inner + S (len post))).
  { unfold s. rewrite !len_app.
    change (len (String "<" (inner +:+ String ">" post)))
      with (S (len (inner +:+ String ">" post))).
    rewrite len_app.
    change (len (String ">" post)) with (S (len post)). lia. }
  unfold IsValidHTML_body.
  rewrite slice_from by lia. cbn [mbind outcome_bind].
  assert (drop (len pre) s = gap +:+ String "<" (inner +:+ String ">" post))
    as -> by apply drop_app_len.
  rewrite IndexByte_app_skip by done. cbn [IndexByte].
  rewrite decide_True by done. cbn [fmap option_fmap option_map].
  rewrite Nat.add_0_r.
  assert (Hg : (if decide (len pre < len gap + len pre)
                then slice s (len pre) (len gap + len pre)
                else Return "") = Return gap).
  { case_decide as Hlt.
    - rewrite slice_Return by lia. unfold s. rewrite drop_app_len.
      replace (len gap + len pre - len pre) with (len gap) by lia.
      by rewrite take_app_len.
    - destruct gap; [done|]. cbn [len String.length] in Hlt. lia. }
  rewrite Hg. cbn [mbind outcome_bind].
  rewrite decide_False by (intros [_ ?]; done).
  assert (Hoff : (if decide (len pre < len gap + len pre)
                  then len gap + len pre else len pre) = len gap + len pre).
  { case_decide; lia. }
  rewrite Hoff. clear Hoff Hg.
  rewrite slice_from by lia. cbn [mbind outcome_bind].
  assert (Hdrop : drop (len gap + len pre) s
                  = String "<" (inner +:+ String ">" post)).
  { unfold s. rewrite <-append_assoc.
    replace (len gap + len pre) with (len (pre +:+ gap))
      by (rewrite len_app; lia).
    apply drop_app_len. }
  rewrite Hdrop. cbn [IndexByte]. rewrite decide_False by done.
  rewrite IndexByte_app_skip by done. cbn [IndexByte].
  rewrite decide_True by done. cbn [fmap option_fmap option_map].
  rewrite Nat.add_0_r.
  rewrite slice_Return by lia. cbn [mbind outcome_bind].
  assert (Hinner' : take (S (len inner) + (len gap + len pre)
                          - (len gap + len pre + 1))
                      (drop (len gap + len pre + 1) s) = inner).
  { replace (len gap + len pre + 1) with (S (len gap + len pre)) by lia.
    replace (S (len inner) + (len gap + len pre) - S (len gap + len pre))
      with (len inner) by lia.
    assert (drop (S (len gap + len pre)) s = inner +:+ String ">" post)
      as ->; [|apply take_app_len].
    unfold s. rewrite <-append_assoc.
    change (String "<" (inner +:+ String ">" post))
      with ("<" +:+ (inner +:+ String ">" post)).
    rewrite <-(append_assoc (pre +:+ gap) "<").
    replace (S (len gap + len pre)) with (len ((pre +:+ gap) +:+ "<")).
    - apply drop_app_len.
    - rewrite !len_app. change (len "<") with 1. lia. }
  rewrite Hinner'.
  replace (S (len inner) + (len gap + len pre) + 1)
    with (len pre + len gap + len inner + 2) by lia.
  done.
Qed.


Lemma is_alnum_name s :
  all_bytes is_alnum s = true → all_bytes is_name_byte s = true.
Proof.
  induction s as [|c s IH]; [done|]. cbn [all_bytes].
  intros [Hc Hs]%andb_true_iff. rewrite IH by done.
  unfold is_name_byte. by rewrite Hc.
Qed.

Lemma IsValidHTML_loop_S fuel s offset tags :
  IsValidHTML_loop (S fuel) s offset tags =
  if decide (offset < len s) then
    match IsValidHTML_body s offset tags with
    | Panic p => Some (Panic p)
    | Return Break => Some (Return (IsValidHTML_end tags))
    | Return (Fail e) => Some (Return (Some e))
    | Return (Next offset' tags') => IsValidHTML_loop fuel s offset' tags'
    end
  else Some (Return (IsValidHTML_end tags)).
Proof. done. Qed.

Lemma IsValidHTML_loop_done fuel s tags :
  IsValidHTML_loop fuel s (len s) tags = Some (Return (IsValidHTML_end tags)).
Proof. destruct fuel; cbn [IsValidHTML_loop]; by rewrite decide_False by lia. Qed.

(** X17: one element whose names are letters and digits and whose text
    holds no bracket is valid exactly when the closing name equals the
    opening name; a different closing name is reported with both. *)
Theorem IsValidHTML_element a b text :
  a ≠ "" → all_bytes is_alnum a = true → all_bytes is_alnum b = true →
  IndexByte text "<" = None → IndexByte text ">" = None →
  IsValidHTML ("<" +:+ a +:+ ">" +:+ text +:+ "</" +:+ b +:+ ">")
  = Return (if decide (a = b) then None else Some (ErrMismatch a b)).
Proof.
  intros Ha0 Ha Hb Htext_lt Htext_gt.
  set (s := "<" +:+ a +:+ ">" +:+ text +:+ "</" +:+ b +:+ ">").
  assert (Hs1 : s = "" +:+ "" +:+
            String "<" (a +:+ String ">" (text +:+ "</" +:+ b +:+ ">")))
    by done.
  assert (Hs2 : s = ("<" +:+ a +:+ ">") +:+ text +:+
            String "<" (("/" +:+ b) +:+ String ">" "")).
  { unfold s. rewrite !append_assoc. done. }
  assert (Hlen : len s = S (S (len a + len text + len b + 3))).
  { unfold s. rewrite !len_app.
    change (len "<") with 1. change (len ">") with 1.
    change (len "</") with 2. lia. }
  assert (Hpre : len ("<" +:+ a +:+ ">") = len a + 2).
  { rewrite !len_app. change (len "<") with 1. change (len ">") with 1. lia. }
  assert (Hgt : ∀ t, all_bytes is_name_byte t = true → IndexByte t ">" = None).
  { intros t Ht. by apply (all_bytes_IndexByte is_name_byte). }
  assert (Hsp : ∀ t, all_bytes is_name_byte t = true → IndexByte t " " = None).
  { intros t Ht. by apply (all_bytes_IndexByte is_name_byte). }
  assert (Ha' := is_alnum_name a Ha). assert (Hb' := is_alnum_name b Hb).
  assert (Hcb : all_bytes is_name_byte ("/" +:+ b) = true) by done.
  assert (E1 : IsValidHTML_body s 0 [] = Return (Next (len a + 2) [a])).
  { rewrite Hs1 at 1. change 0 with (len "").
    rewrite IsValidHTML_body_at_tag by auto.
    rewrite TrimSpace_name, Hsp by done. cbn [mbind outcome_bind].
    destruct a as [|c a']; [done|].
    rewrite decide_False.
    - done.
    - intros ->. done. }
  assert (E2 : IsValidHTML_body s (len a + 2) [a]
               = Return (if decide (a ≠ b) then Fail (ErrMismatch a b)
                         else Next (len s) [])).
  { rewrite Hs2 at 1. rewrite <-Hpre.
    rewrite IsValidHTML_body_at_tag by auto.
    rewrite TrimSpace_name, Hsp by done. cbn [mbind outcome_bind].
    change ("/" +:+ b) with (String "/" b). cbn iota.
    rewrite decide_True by done. cbn [top last mbind outcome_bind].
    change (last [a]) with (Some a). cbn [mbind outcome_bind].
    case_decide; [done|]. do 2 f_equal.
    rewrite Hpre, Hlen. change (len (String "/" b)) with (S (len b)). lia. }
  assert (H : IsValidHTML_loop (len s) s 0 []
              = Some (Return (if decide (a = b) then None
                              else Some (ErrMismatch a b)))).
  { rewrite Hlen at 1. rewrite IsValidHTML_loop_S.
    rewrite decide_True by lia. rewrite E1, IsValidHTML_loop_S.
    rewrite decide_True by lia. rewrite E2.
    destruct (decide (a = b)) as [->|Hab].
    - rewrite decide_False by (intros ?; done).
      by rewrite IsValidHTML_loop_done.
    - by rewrite decide_True. }
  rewrite IsValidHTML_loop_eq in H. by injection H.
Qed.

(** * The properties on sample streams *)

Lemma NewEntriesFromFile_slots_witness :
  length (<[0 := mkEntry 1 false [] "x" "a {{c1::x}}" "t {{c1::z}}"
                   "w" "p" "d" ["t"]]> Entries_zero) = 2200
  ∧ ∀ i e,
      <[0 := mkEntry 1 false [] "x" "a {{c1::x}}" "t {{c1::z}}"
               "w" "p" "d" ["t"]]> Entries_zero !! i = Some e →
      e = Entry_zero ∨ (id e = Z.of_nat i + 1 ∧ 1 ≤ id e ≤ 2200)%Z.
Proof.
  apply (NewEntriesFromFile_slots
           ["0001"; "a {{c1::x}}"; "t {{c1::z}}"; "w"; "p"; "d"; "t"; "---"]
           None _ None).
  vm_compute; reflexivity.
Defined.

Lemma ParseError_location_witness :
  1 ≤ 8 ≤ length ["0001"; "a"; "t"; "w"; "p"; "d"; "t"; "--"; "0002"]
  ∧ ["0001"; "a"; "t"; "w"; "p"; "d"; "t"; "--"; "0002"] !! (8 - 1)
    = Some "--"
  ∧ ((8 - 1) mod 8 = EntryID ∨ (8 - 1) mod 8 = EntryEnd).
Proof.
  apply (ParseError_location
           ["0001"; "a"; "t"; "w"; "p"; "d"; "t"; "--"; "0002"] None
           Entries_zero
           (mkEntriesParseError 8 "--"
              (Sprintf
                 "line %d: unexpected end of entry. found: %q, expected: %q"
                 [ArgInt 8; ArgQuoted "--"; ArgQuoted EntryDelimiter]))).
  vm_compute; reflexivity.
Defined.

Lemma ParseError_no_lookahead_witness :
  NewEntriesFromFile
    (list.take 1 ["01"; "a"; "t"] ++ ["0002"; "b"]) (Some "closed")
  = Return (Entries_zero, Some (ParseError (mkEntriesParseError 1 "01"
      (Sprintf
         "line %d: entry ID too short: %q: found %d digits, expected %d digits"
         [ArgInt 1; ArgQuoted "01"; ArgInt 2; ArgInt 4])))).
Proof.
  apply (ParseError_no_lookahead ["01"; "a"; "t"] None Entries_zero
           (mkEntriesParseError 1 "01"
              (Sprintf
                 "line %d: entry ID too short: %q: found %d digits, expected %d digits"
                 [ArgInt 1; ArgQuoted "01"; ArgInt 2; ArgInt 4]))
           ["0002"; "b"] (Some "closed")).
  vm_compute; reflexivity.
Defined.

Lemma ParseError_storage_witness :
  NewEntriesFromFile
    (list.take (8 * ((16 - 1) / 8))
       ["0001"; "a {{c1::x}}"; "t {{c1::z}}"; "w"; "p"; "d"; "t"; "---";
        "0002"; "b {{c1::y}}"; "u {{c1::v}}"; "w"; "p"; "d"; "t"; "--"])
    None
  = Return (<[0 := mkEntry 1 false [] "x" "a {{c1::x}}" "t {{c1::z}}"
                     "w" "p" "d" ["t"]]> Entries_zero, None).
Proof.
  apply (ParseError_storage
           ["0001"; "a {{c1::x}}"; "t {{c1::z}}"; "w"; "p"; "d"; "t"; "---";
            "0002"; "b {{c1::y}}"; "u {{c1::v}}"; "w"; "p"; "d"; "t"; "--"]
           None _
           (mkEntriesParseError 16 "--"
              (Sprintf
                 "line %d: unexpected end of entry. found: %q, expected: %q"
                 [ArgInt 16; ArgQuoted "--"; ArgQuoted EntryDelimiter]))).
  vm_compute; reflexivity.
Defined.

Lemma scanned_record_witness :
  ∃ entries r,
    NewEntriesFromFile
      ([mkGroup "0001* see" "a <b>" "t {{c1::z}}" "w" "p" "d" "t"] ≫= lines)
      None = Return (entries, None)
    ∧ entries !! Z.to_nat (1 - 1) = Some r
    ∧ id r = 1%Z
    ∧ dirty r = true
    ∧ comments r =
        ["see"; "usage is missing cloze deletion.";
         "not all tags closed: [b]"].
Proof.
  destruct (scanned_record
    [mkGroup "0001* see" "a <b>" "t {{c1::z}}" "w" "p" "d" "t"] 0
    (mkGroup "0001* see" "a <b>" "t {{c1::z}}" "w" "p" "d" "t"))
    as (entries & r & Hrun & Hslot & Hid & Hdirty & Hcomments).
  - constructor; [|constructor].
    unfold scannable, group_id; simpl.
    split_and!; try lia; try done; eauto.
  - reflexivity.
  - intros k' g' Hk'. destruct k'; [lia | done].
  - exists entries, r. split_and!; [exact Hrun|exact Hslot|exact Hid| |exact Hcomments].
    apply Hdirty. left. split; [simpl; lia | reflexivity].
Defined.

Lemma Entries_Write_trace_witness :
  ∃ written,
    written `prefix_of`
      filter (λ e, writable e = true)
        [mkEntry 1 false [] "x" "a" "t" "w" "p" "d" ["l"];
         mkEntry 2 true ["c"] "" "b" "u" "w" "p" "d" ["l"];
         Entry_zero;
         mkEntry 4 false [] "y" "e" "v" "w" "p" "d" ["l"]]
    ∧ (mkRowsWriter [] (Some 0)
       = write_all (mkRowsWriter [] (Some 0)) ((λ e, CSV e "jy") <$> written)
       ∨ mkRowsWriter [] (Some 0)
         = csv_Flush (write_all (mkRowsWriter [] (Some 0))
                        ((λ e, CSV e "jy") <$> written)))
    ∧ 0 ≤ length written ≤ 0 + 1.
Proof.
  destruct (Entries_Write_trace
    [mkEntry 1 false [] "x" "a" "t" "w" "p" "d" ["l"];
     mkEntry 2 true ["c"] "" "b" "u" "w" "p" "d" ["l"];
     Entry_zero;
     mkEntry 4 false [] "y" "e" "v" "w" "p" "d" ["l"]]
    (mkRowsWriter [] (Some 0)) "jy"
    (mkRowsWriter [] (Some 0)) 0 0
    (Some (Sprintf "failed to write csv data: %w" [ArgError "short write"])))
    as (written & Hpre & Hw & Hcount & _).
  - vm_compute; reflexivity.
  - exists written. split_and!; [exact Hpre | exact Hw | apply Hcount..].
Defined.

Lemma Entries_Write_exact_witness :
  Entries_Write
    [mkEntry 1 false [] "x" "a" "t" "w" "p" "d" ["l"];
     mkEntry 2 true ["c"] "" "b" "u" "w" "p" "d" ["l"];
     Entry_zero;
     mkEntry 4 false [] "y" "e" "v" "w" "p" "d" ["l"]]
    (mkRowsWriter [] None) "jy"
  = (csv_Flush
       (write_all (mkRowsWriter [] None)
          ((λ e, CSV e "jy")
             <$> filter (λ e, writable e = true)
                   [mkEntry 1 false [] "x" "a" "t" "w" "p" "d" ["l"];
                    mkEntry 2 true ["c"] "" "b" "u" "w" "p" "d" ["l"];
                    Entry_zero;
                    mkEntry 4 false [] "y" "e" "v" "w" "p" "d" ["l"]])),
     (2, 1, None)).
Proof.
  apply (Entries_Write_exact (λ w : rows_writer, room w = None)).
  - intros [rs rm] record Hok. simpl in Hok. subst rm. split; reflexivity.
  - reflexivity.
  - reflexivity.
Defined.


Lemma scan_then_Write_counts_witness :
  ∃ entries w count ndirty,
    NewEntriesFromFile
      ([mkGroup "0002" "b {{c1::y}}" "u {{c1::v}}" "w" "p" "d" "t";
        mkGroup "0001*" "a {{c1::x}}" "t {{c1::z}}" "w" "p" "d" "t"]
         ≫= lines) None = Return (entries, None)
    ∧ Entries_Write entries (mkRowsWriter [] None) "jy"
      = (w, (count, ndirty, None))
    ∧ count = 1 ∧ ndirty = 1 ∧ count + ndirty = 2 ∧ length (rows w) = count.
Proof.
  destruct (scan_then_Write_counts
    [mkGroup "0002" "b {{c1::y}}" "u {{c1::v}}" "w" "p" "d" "t";
     mkGroup "0001*" "a {{c1::x}}" "t {{c1::z}}" "w" "p" "d" "t"] "jy")
    as (entries & w & count & ndirty & Hrun & Hwrite & Hc & Hd & Hsum & Hrows).
  - repeat constructor; unfold group_id; simpl; try lia; eauto.
  - compute_done.
  - exists entries, w, count, ndirty.
    split_and!; [exact Hrun | exact Hwrite | exact Hc | exact Hd
                | exact Hsum | exact Hrows].
Defined.

Lemma id_round_trip_witness :
  ∃ current',
    scan_line 1 "0042* see" Entries_zero Entry_zero
      = Return (Continue Entries_zero current')
    ∧ (0 ≤ id current' ≤ 9999)%Z
    ∧ CSV current' "jy" !! 0 = Some ("jy" +:+ "-" +:+ take 4 "0042* see")
    ∧ Audio current' "jy"
      = "[sound:" +:+ "jy" +:+ "-" +:+ take 4 "0042* see" +:+ ".mp3]".
Proof.
  apply (id_round_trip 1 "0042* see" Entries_zero Entry_zero "jy");
    [reflexivity | simpl; lia | reflexivity].
Defined.

Lemma ID_line_range_witness :
  (∃ current',
     scan_line 1 "-012" Entries_zero Entry_zero
       = Return (Continue Entries_zero current')
     ∧ (-999 ≤ id current' ≤ 9999)%Z)
  ∨ scan_line 1 "-012" Entries_zero Entry_zero =
      Return (Stop Entries_zero (ParseError (mkEntriesParseError 1 "-012"
        (Sprintf "line %d: failed to parse entry ID: %q: %v"
           [ArgInt (Z.of_nat 1); ArgQuoted "-012";
            ArgNumError (mkNumError "ParseInt" (take 4 "-012") ErrSyntax)])))).
Proof.
  apply (ID_line_range 1 "-012" Entries_zero Entry_zero);
    [reflexivity | simpl; lia].
Defined.

Lemma Minimal_agrees_witness :
  Minimal.NewEntriesFromFile
    ["0001"; "a <b>x</b>"; "t {{c1::z}}"; "w"; "p"; "d"; "t"; "---"] None
  = NewEntriesFromFile
      ["0001"; "a <b>x</b>"; "t {{c1::z}}"; "w"; "p"; "d"; "t"; "---"] None.
Proof.
  apply (Minimal_agrees
           ["0001"; "a <b>x</b>"; "t {{c1::z}}"; "w"; "p"; "d"; "t"; "---"]
           None).
  intros i data Hi Hrole.
  do 8 (destruct i as [|i]; [simplify_eq/=; try reflexivity;
                             destruct Hrole; discriminate|]).
  discriminate.
Defined.

Lemma Minimal_less_strict_witness :
  ∃ entries',
    Minimal.NewEntriesFromFile
      ["0001"; "a {{c1::x}} <b>"; "t {{c1::z}}"; "w"; "p"; "d"; "t"; "---"]
      None = Return (entries', None)
    ∧ Forall2 less_flagged entries'
        (<[0 := mkEntry 1 true ["not all tags closed: [b]"] "x"
                  "a {{c1::x}} <b>" "t {{c1::z}}" "w" "p" "d" ["t"]]>
           Entries_zero).
Proof.
  apply (Minimal_less_strict
           ["0001"; "a {{c1::x}} <b>"; "t {{c1::z}}"; "w"; "p"; "d"; "t"; "---"]
           None _ None).
  vm_compute; reflexivity.
Defined.

Lemma IsValidHTML_only_panic_witness :
  IsValidHTML "a </b>" = Panic (IndexOutOfRange (-1) 0)
  ∧ IndexOutOfRange (-1) 0 = IndexOutOfRange (-1) 0.
Proof.
  split; [vm_compute; reflexivity|].
  apply (IsValidHTML_only_panic "a </b>"). vm_compute; reflexivity.
Defined.

Lemma IsValidHTML_error_names_witness :
  open_name "b" ∧ "b" ≠ "i".
Proof.
  apply (IsValidHTML_error_names "<b>x</i>" (ErrMismatch "b" "i")).
  vm_compute; reflexivity.
Defined.

Lemma IsValidHTML_element_witness :
  IsValidHTML ("<" +:+ "b" +:+ ">" +:+ "1 + 1" +:+ "</" +:+ "i" +:+ ">")
  = Return (if decide ("b" = "i") then None else Some (ErrMismatch "b" "i")).
Proof.
  apply (IsValidHTML_element "b" "i" "1 + 1");
    [discriminate | reflexivity..].
Defined.
